(** * Health checker: the check-and-cache engine of [health.astro]

    A shallow embedding of [src/components/health.astro]: the request
    built for each endpoint, the classification of a settled probe, the
    fan-out over all endpoints ([Promise.all]), the in-memory result
    cache and the e-mail notification.

    The JavaScript runtime is not part of the repository.  It appears here
    as an explicit environment: what the transport does with each request,
    in which order the pending probes are resumed, the clock, the process
    environment variables and the behaviour of the e-mail provider. *)

From Stdlib Require Import ZArith Ascii DecimalString.
From stdpp Require Import base list strings gmap.

Local Open Scope Z_scope.
Local Open Scope string_scope.

(** ** Data model *)

(** The [method] enumeration of [EndpointEntryData]. *)
Inductive Method := GET | POST | PUT | DELETE | PATCH | HEAD | OPTIONS.

Definition method_string (m : Method) : string :=
  match m with
  | GET => "GET" | POST => "POST" | PUT => "PUT" | DELETE => "DELETE"
  | PATCH => "PATCH" | HEAD => "HEAD" | OPTIONS => "OPTIONS"
  end.

(** [body?: any]: the value comes from [endpoints.json], so it is a JSON
    value. *)
#[warnings="-register-all"]
Inductive Json :=
  | JNull
  | JBool (b : bool)
  | JNum (n : Z)
  | JStr (s : string)
  | JArr (items : list Json)
  | JObj (fields : list (string * Json)).

(** JavaScript truthiness, as used by [&&], [||], [!] and [if]. *)
Definition truthy_string (s : string) : bool :=
  match s with "" => false | _ => true end.

Definition truthy_json (j : Json) : bool :=
  match j with
  | JNull => false
  | JBool b => b
  | JNum n => negb (n =? 0)%Z
  | JStr s => truthy_string s
  | JArr _ | JObj _ => true
  end.

(** An optional property: [None] is [undefined]. *)
Definition truthy_opt {A} (t : A → bool) (o : option A) : bool :=
  match o with Some a => t a | None => false end.

Record EndpointEntryData := {
  e_name : string;
  e_url : string;
  e_method : Method;
  e_expectedStatus : Z;
  e_description : option string;
  e_headers : option (gmap string string);
  e_body : option Json
}.

Inductive Status := Healthy | Unhealthy | Error | Pending.

#[global] Instance Status_eq_dec : EqDecision Status.
Proof. solve_decision. Defined.

Record EndpointStatus := {
  name : string;
  url : string;
  method : string;
  expectedStatus : Z;
  description : option string;
  headers : option (gmap string string);
  body : option Json;
  status : Status;
  statusCode : option Z;
  statusText : option string;
  errorMessage : option string
}.

Record CacheData := {
  statuses : list EndpointStatus;
  lastChecked : Z
}.

Definition CACHE_DURATION_MS : Z := 60 * 1000.

(** The delay passed to [setTimeout] before [controller.abort()]. *)
Definition PROBE_TIMEOUT_MS : Z := 5000.

(** ** Strings *)

(** Template-literal interpolation of a number.  [expectedStatus] is an
    integer by the collection schema and [response.status] is an HTTP
    status.  A JavaScript number holds every integer up to
    [MAX_SAFE_INTEGER] in absolute value exactly and prints it in plain
    decimal; beyond that it rounds, and from 10^21 on it prints in exponent
    form ("1e+21").  [number_string] is the printing of a safe integer,
    and statements about printed numbers assume [safe_integer]. *)
Definition number_string (n : Z) : string :=
  NilZero.string_of_int (Z.to_int n).

Definition MAX_SAFE_INTEGER : Z := 2 ^ 53 - 1.

Definition safe_integer (n : Z) : Prop :=
  (- MAX_SAFE_INTEGER ≤ n ≤ MAX_SAFE_INTEGER)%Z.

(** [toLowerCase] on ASCII text, which the messages of the errors thrown
    by [fetch] are. *)
Definition lower_ascii (c : ascii) : ascii :=
  let n := nat_of_ascii c in
  if (65 <=? n)%nat && (n <=? 90)%nat then ascii_of_nat (n + 32) else c.

Fixpoint toLowerCase (s : string) : string :=
  match s with
  | EmptyString => EmptyString
  | String c r => String (lower_ascii c) (toLowerCase r)
  end.

Fixpoint starts_with (needle s : string) : bool :=
  match needle, s with
  | EmptyString, _ => true
  | String a n', String b s' => if Ascii.eqb a b then starts_with n' s' else false
  | String _ _, EmptyString => false
  end.

Fixpoint includes (s needle : string) : bool :=
  starts_with needle s ||
  match s with
  | EmptyString => false
  | String _ r => includes r needle
  end.

(** ** Exceptions

    [await] on a rejected promise throws; [try]/[catch] recovers.  A
    computation either returns or throws a JavaScript error, of which the
    code reads [name] and [message]. *)

Record JsError := { err_name : string; err_message : string }.

Inductive result (A : Type) :=
  | Ok (a : A)
  | Throw (e : JsError).
Arguments Ok {A} a.
Arguments Throw {A} e.

#[global] Instance result_ret : MRet result := λ A a, Ok a.
#[global] Instance result_bind : MBind result := λ A B f r,
  match r with Ok a => f a | Throw e => Throw e end.

Definition try_catch {A} (body : result A) (handler : JsError → result A) : result A :=
  match body with Ok a => Ok a | Throw e => handler e end.

(** [Promise.all]: the values by position when every promise fulfils,
    otherwise a rejection. *)
Fixpoint promise_all {A} (ps : list (result A)) : result (list A) :=
  match ps with
  | [] => Ok []
  | p :: rest => a ← p; l ← promise_all rest; mret (a :: l)
  end.

(** ** The request of one probe *)

Record RequestInit := {
  r_method : string;
  r_headers : gmap string string;
  r_body : option Json  (* the value given to [JSON.stringify] *)
}.

Definition takes_payload (m : Method) : bool :=
  match m with POST | PUT | PATCH => true | _ => false end.

Definition fetchOptions (endpoint : EndpointEntryData) : RequestInit :=
  let m := method_string (e_method endpoint) in
  let init_method := if truthy_string m then m else "GET" in
  let init_headers := match e_headers endpoint with Some h => h | None => ∅ end in
  if truthy_opt truthy_json (e_body endpoint) && takes_payload (e_method endpoint) then
    {| r_method := init_method;
       r_headers :=
         if negb (truthy_opt truthy_string (init_headers !! "Content-Type"))
         then <["Content-Type" := "application/json"]> init_headers
         else init_headers;
       r_body := e_body endpoint |}
  else
    {| r_method := init_method; r_headers := init_headers; r_body := None |}.

(** ** The transport and the abort timer

    What the network does with one request: a response (its status line)
    some milliseconds after the request was sent, a failure after some
    milliseconds, or nothing at all. *)

Record Response := { r_status : Z; r_statusText : string }.

Inductive Transport :=
  | Responds (after : N) (response : Response)
  | Fails (after : N) (error : JsError)
  | Hangs.

(** The rejection of a [fetch] whose signal was aborted: an error named
    [AbortError]; its message depends on the runtime. *)
Definition AbortError (message : string) : JsError :=
  {| err_name := "AbortError"; err_message := message |}.

Definition within_deadline (after : N) : bool := (Z.of_N after <? PROBE_TIMEOUT_MS)%Z.

(** [await fetch(url, {signal, ...})] with [controller.abort()] scheduled
    at [PROBE_TIMEOUT_MS]: how the promise settles, and the milliseconds
    that pass at least until it does (a timer fires no earlier than its
    delay, and the callback is resumed some time after the promise
    settles). *)
Definition fetch_with_signal (abort_message : string) (t : Transport)
  : N * result Response :=
  match t with
  | Responds after response =>
      if within_deadline after then (after, Ok response)
      else (Z.to_N PROBE_TIMEOUT_MS, Throw (AbortError abort_message))
  | Fails after error =>
      if within_deadline after then (after, Throw error)
      else (Z.to_N PROBE_TIMEOUT_MS, Throw (AbortError abort_message))
  | Hangs => (Z.to_N PROBE_TIMEOUT_MS, Throw (AbortError abort_message))
  end.

(** ** One probe: the body of the [map] callback after [await fetch]

    [clearTimeout] runs on both paths and has no effect on what the
    callback pushes or returns. *)

Record Probed := {
  pushed : option EndpointStatus;  (* the [failedEndpoints.push], if any *)
  outcome : EndpointStatus         (* the value the callback returns *)
}.

Definition mismatch_message (expected actual : Z) : string :=
  "Expected status " +:+ number_string expected +:+ " but got " +:+ number_string actual.

Definition probe (endpoint : EndpointEntryData) (settled : result Response)
  : result Probed :=
  try_catch
    (response ← settled;
     let isSuccess := (r_status response =? e_expectedStatus endpoint)%Z in
     mret {|
       pushed :=
         if negb isSuccess then
           Some {| name := e_name endpoint;
                   url := e_url endpoint;
                   method := method_string (e_method endpoint);
                   expectedStatus := e_expectedStatus endpoint;
                   description := e_description endpoint;
                   headers := e_headers endpoint;
                   body := e_body endpoint;
                   status := Unhealthy;
                   statusCode := Some (r_status response);
                   statusText := Some (r_statusText response);
                   errorMessage :=
                     Some (mismatch_message (e_expectedStatus endpoint) (r_status response)) |}
         else None;
       outcome :=
         {| name := e_name endpoint;
            url := e_url endpoint;
            method := method_string (e_method endpoint);
            expectedStatus := e_expectedStatus endpoint;
            description := e_description endpoint;
            headers := e_headers endpoint;
            body := e_body endpoint;
            status := if isSuccess then Healthy else Unhealthy;
            statusCode := Some (r_status response);
            statusText := Some (r_statusText response);
            errorMessage :=
              if isSuccess then None
              else Some (mismatch_message (e_expectedStatus endpoint) (r_status response)) |}
     |})
    (λ error,
       let errorMessage :=
         if String.eqb (err_name error) "AbortError"
            || includes (toLowerCase (err_message error)) "timed out"
            || includes (toLowerCase (err_message error)) "aborted"
         then "Request timed out or was aborted."
         else err_message error in
       mret {|
         pushed := None;
         outcome :=
           {| name := e_name endpoint;
              url := e_url endpoint;
              method := method_string (e_method endpoint);
              expectedStatus := e_expectedStatus endpoint;
              description := e_description endpoint;
              headers := e_headers endpoint;
              body := e_body endpoint;
              status := Error;
              statusCode := None;
              statusText := None;
              errorMessage := Some errorMessage |}
       |}).

(** ** The notification *)

Definition status_string (s : Status) : string :=
  match s with
  | Healthy => "Healthy" | Unhealthy => "Unhealthy"
  | Error => "Error" | Pending => "Pending"
  end.

(** The outbound call of [sendEmail]: its [Authorization] header and the
    four properties of its JSON body. *)
Record EmailRequest := {
  m_authorization : string;
  m_from : string;
  m_to : string;
  m_subject : string;
  m_html : string
}.

(** What the e-mail provider does with the call: it answers with some
    status and a body that parses as JSON or does not, or the call fails in
    transport. *)
Inductive Provider :=
  | Answers (code : Z) (body_is_json : bool)
  | Unreachable (error : JsError).

Inductive Event :=
  | ConsoleLog (lastFetched : option Z)
  | ProbeFetch (target : string) (init : RequestInit)
  | EmailFetch (request : EmailRequest)
  | ConsoleError (error : JsError).

(** String concatenation with a value that may be [undefined]. *)
Definition concat_opt (o : option string) : string :=
  match o with Some s => s | None => "undefined" end.

Definition email_fetch (p : Provider) : result (Z * bool) :=
  match p with
  | Answers code body_is_json => Ok (code, body_is_json)
  | Unreachable error => Throw error
  end.

(** [response.json()]: the message of the real [SyntaxError] depends on
    the body; it only reaches the console. *)
Definition response_json (response : Z * bool) : result () :=
  if response.2 then Ok ()
  else Throw {| err_name := "SyntaxError"; err_message := "Unexpected token" |}.

Definition email_content (endpoits : list EndpointStatus) : string :=
  foldl (λ content endpoint,
           content +:+ "<li>" +:+ name endpoint +:+ ": "
                   +:+ status_string (status endpoint) +:+ "</li>")
        "<ul>" endpoits
  +:+ "</ul>".

Definition email_request (env : gmap string string) (endpoits : list EndpointStatus)
  : EmailRequest :=
  {| m_authorization := "Bearer " +:+ concat_opt (env !! "PUBLIC_RESEND_API_KEY");
     m_from := "health@jsft.dk";
     m_to := "jojokbh@gmail.com";
     m_subject := "Health check failed";
     m_html := "<strong>" +:+ email_content endpoits +:+ "</strong>" |}.

(** [sendEmail]: the events it causes and how its promise settles. *)
Definition sendEmail (env : gmap string string) (provider : EmailRequest → Provider)
    (endpoits : list EndpointStatus) : list Event * result () :=
  let request := email_request env endpoits in
  let attempt : result () :=
    response ← email_fetch (provider request);
    response_json response in
  (EmailFetch request ::
     match attempt with Ok _ => [] | Throw error => [ConsoleError error] end,
   try_catch attempt (λ error, mret ())).

(** ** The check run and the cache *)

(** Everything one call of [getEndpointStatuses] takes from outside the
    component. *)
Record Runtime := {
  clock : Z;                                          (* [Date.now()] *)
  env : gmap string string;                           (* [import.meta.env] *)
  transport : nat → string → RequestInit → Transport; (* by position in the collection *)
  abort_message : string;
  resume_order : list nat;     (* positions, in the order their fetches settle *)
  provider : EmailRequest → Provider
}.

Definition settle (rt : Runtime) (i : nat) (endpoint : EndpointEntryData)
  : N * result Response :=
  fetch_with_signal (abort_message rt)
    (transport rt i (e_url endpoint) (fetchOptions endpoint)).

(** The earliest instant at which the fetch of position [i] can settle:
    it is sent no earlier than [clock rt] is read. *)
Definition settled_at (rt : Runtime) (i : nat) (endpoint : EndpointEntryData) : Z :=
  clock rt + Z.of_N (settle rt i endpoint).1.

(** The promises that [endpointCollectionEntries.map(async ...)] creates. *)
Definition callbacks (rt : Runtime) (entries : list EndpointEntryData)
  : list (result Probed) :=
  imap (λ i endpoint, probe endpoint (settle rt i endpoint).2) entries.

(** [failedEndpoints] once every callback has run: each callback pushes
    when it is resumed, so the array is in settling order. *)
Definition failedEndpoints (rt : Runtime) (entries : list EndpointEntryData)
  : list EndpointStatus :=
  omap (λ i, match callbacks rt entries !! i with
             | Some (Ok p) => pushed p
             | _ => None
             end)
       (resume_order rt).

Record Served := {
  returned : result CacheData;
  cache_after : option CacheData;  (* [globalThis[HEALTH_CHECK_CACHE_KEY]] *)
  events : list Event
}.

Definition refresh (rt : Runtime) (entries : list EndpointEntryData)
    (currentCache : option CacheData) : Served :=
  let now := clock rt in
  let launched :=
    imap (λ (i : nat) endpoint, ProbeFetch (e_url endpoint) (fetchOptions endpoint))
         entries in
  match promise_all (callbacks rt entries) with
  | Throw error =>
      {| returned := Throw error;
         cache_after := currentCache;
         events := ConsoleLog (lastChecked <$> currentCache) :: launched |}
  | Ok probed =>
      let failed := failedEndpoints rt entries in
      let mail :=
        if truthy_opt truthy_string (env rt !! "PUBLIC_RESEND_API_KEY")
           && (0 <? length failed)%nat
        then (sendEmail (env rt) (provider rt) failed).1
        else [] in
      let newCacheData := {| statuses := outcome <$> probed; lastChecked := now |} in
      {| returned := Ok newCacheData;
         cache_after := Some newCacheData;
         events := ConsoleLog (lastChecked <$> currentCache) :: launched ++ mail |}
  end.

Definition getEndpointStatuses (rt : Runtime) (entries : list EndpointEntryData)
    (currentCache : option CacheData) : Served :=
  let now := clock rt in
  match currentCache with
  | Some cached =>
      if (now - lastChecked cached <? CACHE_DURATION_MS)%Z then
        {| returned := Ok cached;
           cache_after := currentCache;
           events := [ConsoleLog (Some (lastChecked cached))] |}
      else refresh rt entries currentCache
  | None => refresh rt entries currentCache
  end.

(** ** Observations on a served request *)

Definition is_probe (e : Event) : bool :=
  match e with ProbeFetch _ _ => true | _ => false end.

Definition is_email (e : Event) : bool :=
  match e with EmailFetch _ => true | _ => false end.

Definition probe_calls (s : Served) : nat := length (filter is_probe (events s)).
Definition email_calls (s : Served) : nat := length (filter is_email (events s)).

Definition emails_sent (s : Served) : list EmailRequest :=
  omap (λ e, match e with EmailFetch r => Some r | _ => None end) (events s).

(** The two groups of outbound calls of a check run: the probes, and the
    notification when the condition on line 193 holds. *)
Definition launched (entries : list EndpointEntryData) : list Event :=
  (λ endpoint, ProbeFetch (e_url endpoint) (fetchOptions endpoint)) <$> entries.

Definition mail (rt : Runtime) (entries : list EndpointEntryData) : list Event :=
  if truthy_opt truthy_string (env rt !! "PUBLIC_RESEND_API_KEY")
     && (0 <? length (failedEndpoints rt entries))%nat
  then (sendEmail (env rt) (provider rt) (failedEndpoints rt entries)).1
  else [].

(** ** Schedules *)

(** Every callback of the run is resumed once: the order is an
    arrangement of the positions of the collection. *)
Definition settles_each_once (rt : Runtime) (entries : list EndpointEntryData) : Prop :=
  resume_order rt ≡ₚ seq 0 (length entries).

Fixpoint nondecreasing (ts : list N) : bool :=
  match ts with
  | t :: (u :: _) as rest => (t <=? u)%N && nondecreasing rest
  | _ => true
  end.

(** The order agrees with the instants at which the fetches settle. *)
Definition settles_in_time_order (rt : Runtime) (entries : list EndpointEntryData) : bool :=
  nondecreasing
    (omap (λ i, (λ endpoint, (settle rt i endpoint).1) <$> entries !! i)
          (resume_order rt)).

(** ** The claim on the timestamp *)

(** C8, as claimed, at one check run: the installed [lastChecked] is not
    earlier than the instant at which the fetch of each definition
    settled. *)
Definition stamped_at_completion (rt : Runtime) (entries : list EndpointEntryData)
    (currentCache : option CacheData) : Prop :=
  ∀ c i endpoint,
    cache_after (refresh rt entries currentCache) = Some c →
    entries !! i = Some endpoint →
    (settled_at rt i endpoint ≤ lastChecked c)%Z.

(** ** Variations of the environment *)

Definition reorder (rt : Runtime) (order : list nat) : Runtime :=
  {| clock := clock rt; env := env rt; transport := transport rt;
     abort_message := abort_message rt; resume_order := order;
     provider := provider rt |}.

Definition with_provider (rt : Runtime) (p : EmailRequest → Provider) : Runtime :=
  {| clock := clock rt; env := env rt; transport := transport rt;
     abort_message := abort_message rt; resume_order := resume_order rt;
     provider := p |}.

Definition at_clock (rt : Runtime) (now : Z) : Runtime :=
  {| clock := now; env := env rt; transport := transport rt;
     abort_message := abort_message rt; resume_order := resume_order rt;
     provider := provider rt |}.

(** ** Conditions

    The transport neither answered nor failed before the abort timer. *)
Definition timed_out (t : Transport) : bool :=
  match t with
  | Responds after _ | Fails after _ => negb (within_deadline after)
  | Hangs => true
  end.

(** [import.meta.env.PUBLIC_RESEND_API_KEY] as a condition. *)
Definition credential_configured (rt : Runtime) : bool :=
  truthy_opt truthy_string (env rt !! "PUBLIC_RESEND_API_KEY").

(** ** Scenarios *)

Definition endpoint_of (n u : string) (m : Method) (expected : Z) : EndpointEntryData :=
  {| e_name := n; e_url := u; e_method := m; e_expectedStatus := expected;
     e_description := None; e_headers := None; e_body := None |}.

Definition endpointA : EndpointEntryData := endpoint_of "A" "http://ok.test" GET 200.
Definition endpointB : EndpointEntryData := endpoint_of "B" "http://bad.test" GET 200.
Definition endpointC : EndpointEntryData := endpoint_of "C" "http://slow.test" GET 200.

Definition configured_env : gmap string string :=
  {[ "PUBLIC_RESEND_API_KEY" := "re_test_key";
     "EMAIL_FROM" := "alerts@example.org";
     "EMAIL_TO" := "oncall@example.org" ]}.

(** A answers 200 after 80 ms, B answers 500 after 40 ms, so B's callback
    is resumed first. *)
Definition rt_two : Runtime :=
  {| clock := 1700000000000;
     env := configured_env;
     transport := λ i _ _,
       match i with
       | 0%nat => Responds 80 {| r_status := 200; r_statusText := "OK" |}
       | _ => Responds 40 {| r_status := 500; r_statusText := "Internal Server Error" |}
       end;
     abort_message := "This operation was aborted";
     resume_order := [1%nat; 0%nat];
     provider := λ _, Answers 200 true |}.

(** Both answer 500: A after 80 ms, B after 40 ms. *)
Definition rt_both_bad : Runtime :=
  {| clock := 1700000000000;
     env := configured_env;
     transport := λ i _ _,
       match i with
       | 0%nat => Responds 80 {| r_status := 500; r_statusText := "Internal Server Error" |}
       | _ => Responds 40 {| r_status := 500; r_statusText := "Internal Server Error" |}
       end;
     abort_message := "This operation was aborted";
     resume_order := [1%nat; 0%nat];
     provider := λ _, Answers 200 true |}.

(** The single target A answers 200. *)
Definition rt_healthy : Runtime :=
  {| clock := 1700000000000;
     env := configured_env;
     transport := λ _ _ _, Responds 80 {| r_status := 200; r_statusText := "OK" |};
     abort_message := "This operation was aborted";
     resume_order := [0%nat];
     provider := λ _, Answers 200 true |}.

(** The single target B answers 500 and no credential is set. *)
Definition rt_unconfigured : Runtime :=
  {| clock := 1700000000000;
     env := ∅;
     transport := λ _ _ _,
       Responds 40 {| r_status := 500; r_statusText := "Internal Server Error" |};
     abort_message := "This operation was aborted";
     resume_order := [0%nat];
     provider := λ _, Answers 200 true |}.

(** The single target never answers. *)
Definition rt_silent : Runtime :=
  {| clock := 1700000000000;
     env := configured_env;
     transport := λ _ _ _, Hangs;
     abort_message := "This operation was aborted";
     resume_order := [0%nat];
     provider := λ _, Answers 200 true |}.

(** What the run of [rt_two] over [A; B] is expected to produce. *)
Definition outcomeA : EndpointStatus :=
  {| name := "A"; url := "http://ok.test"; method := "GET"; expectedStatus := 200;
     description := None; headers := None; body := None;
     status := Healthy; statusCode := Some 200; statusText := Some "OK";
     errorMessage := None |}.

Definition outcomeB : EndpointStatus :=
  {| name := "B"; url := "http://bad.test"; method := "GET"; expectedStatus := 200;
     description := None; headers := None; body := None;
     status := Unhealthy; statusCode := Some 500;
     statusText := Some "Internal Server Error";
     errorMessage := Some "Expected status 200 but got 500" |}.

Definition outcomeC : EndpointStatus :=
  {| name := "C"; url := "http://slow.test"; method := "GET"; expectedStatus := 200;
     description := None; headers := None; body := None;
     status := Error; statusCode := None; statusText := None;
     errorMessage := Some "Request timed out or was aborted." |}.

(** Cached values 59.999 s and 60 s older than the clock of the scenarios. *)
Definition cached_recent : CacheData :=
  {| statuses := [outcomeB]; lastChecked := 1700000000000 - 59999 |}.

Definition cached_stale : CacheData :=
  {| statuses := [outcomeB]; lastChecked := 1700000000000 - 60000 |}.

(** ** Two requests in a row

    The second request finds in the global cache what the first one left
    there. *)
Definition second_request (first : Served) (rt : Runtime)
    (entries : list EndpointEntryData) : Served :=
  getEndpointStatuses rt entries (cache_after first).

(** ** What a completed outcome looks like *)

Definition present {A} (o : option A) : bool :=
  match o with Some _ => true | None => false end.

Definition completed_outcome (o : EndpointStatus) : Prop :=
  status o ≠ Pending ∧
  (status o = Healthy ↔ statusCode o = Some (expectedStatus o)) ∧
  (status o = Error ↔ statusCode o = None) ∧
  present (statusText o) = present (statusCode o) ∧
  (errorMessage o = None ↔ status o = Healthy).

(** One line of the notification, as [sendEmail] appends it. *)
Definition email_item (endpoint : EndpointStatus) : string :=
  "<li>" +:+ name endpoint +:+ ": " +:+ status_string (status endpoint) +:+ "</li>".

Fixpoint join (parts : list string) : string :=
  match parts with
  | [] => ""
  | part :: rest => part +:+ join rest
  end.

(** The targets of the probe calls of a request, in the order they are
    sent. *)
Definition probe_targets (s : Served) : list (string * string) :=
  omap (λ e, match e with
             | ProbeFetch target init => Some (target, r_method init)
             | _ => None
             end) (events s).

(** ** The page: [getStatusClasses] *)

Record StatusClasses := {
  bg : string;
  border : string;
  text : string;
  pillBg : string;
  pillText : string
}.

Definition getStatusClasses (status : string) : StatusClasses :=
  if String.eqb status "Healthy" then
    {| bg := "bg-green-700/20";
       border := "border-green-500";
       text := "text-green-400";
       pillBg := "bg-green-500/80";
       pillText := "text-green-50" |}
  else if String.eqb status "Unhealthy" then
    {| bg := "bg-yellow-700/20";
       border := "border-yellow-500";
       text := "text-yellow-400";
       pillBg := "bg-yellow-500/80";
       pillText := "text-yellow-50" |}
  else
    {| bg := "bg-red-700/20";
       border := "border-red-500";
       text := "text-red-400";
       pillBg := "bg-red-500/80";
       pillText := "text-red-50" |}.

(** ** The test page: [test-email.astro] *)

Record TestEndpointStatus := {
  t_name : string;
  t_url : string;
  t_status : string
}.

Definition endpoitsTest : list TestEndpointStatus :=
  [ {| t_name := "Test1"; t_url := "https://fakeurl.com"; t_status := "200" |} ].

(** What the page puts in [data]: a text, the parsed body of the
    provider's answer, or the error that was caught. *)
Inductive PageData :=
  | Text (s : string)
  | Parsed
  | Caught (error : JsError).

(** A block of statements falls through, returns a value or throws. *)
Inductive flow (A : Type) :=
  | Next
  | Return (a : A)
  | Raise (e : JsError).
Arguments Next {A}.
Arguments Return {A} a.
Arguments Raise {A} e.

Definition then_flow {A} (first second : flow A) : flow A :=
  match first with Next => second | _ => first end.

Definition catch_flow {A} (body : flow A) (handler : JsError → flow A) : flow A :=
  match body with Raise e => handler e | _ => body end.

(** [const x = await e; rest]: a rejection leaves the block. *)
Definition await_flow {A B} (r : result B) (rest : B → flow A) : flow A :=
  match r with Ok b => rest b | Throw e => Raise e end.

(** [response.ok]: the status is in the range 200-299. *)
Definition response_ok (code : Z) : bool := (200 <=? code)%Z && (code <=? 299)%Z.

Definition test_email_content (endpoits : list TestEndpointStatus) : string :=
  foldl (λ content endpoint,
           content +:+ "<li>" +:+ t_name endpoint +:+ ": "
                   +:+ t_status endpoint +:+ "</li>")
        "<ul>" endpoits
  +:+ "</ul>".

Definition test_email_request (env : gmap string string)
    (endpoits : list TestEndpointStatus) : EmailRequest :=
  {| m_authorization := "Bearer " +:+ concat_opt (env !! "PUBLIC_RESEND_API_KEY");
     m_from := "health@jsft.dk";
     m_to := "jojokbh@gmail.com";
     m_subject := "Health check failed";
     m_html := "<strong>" +:+ test_email_content endpoits +:+ "</strong>" |}.

(** The body of the test page's [sendEmail], statement by statement. *)
Definition test_sendEmail_body (env : gmap string string)
    (provider : EmailRequest → Provider) (endpoits : list TestEndpointStatus)
  : flow PageData :=
  then_flow
    (catch_flow
       (await_flow (email_fetch (provider (test_email_request env endpoits)))
          (λ response,
             then_flow
               (if response_ok response.1
                then Return (Text "Email sent successfully!")
                else Return (Text "Failed to send email:"))
               (await_flow (response_json response) (λ _, Return Parsed))))
       (λ error, Return (Caught error)))
    (Return (Text "Didnt even try")).

(** The promise of an [async] function: fulfilled with the returned value
    ([undefined] when the body falls through), rejected when it throws. *)
Definition test_sendEmail (env : gmap string string)
    (provider : EmailRequest → Provider) (endpoits : list TestEndpointStatus)
  : result (option PageData) :=
  match test_sendEmail_body env provider endpoits with
  | Next => Ok None
  | Return v => Ok (Some v)
  | Raise e => Throw e
  end.

Record TestPage := {
  page_data : result (option PageData);
  page_calls : list EmailRequest
}.

Definition test_page (env : gmap string string) (provider : EmailRequest → Provider)
  : TestPage :=
  if truthy_opt truthy_string (env !! "PUBLIC_RESEND_API_KEY") then
    {| page_data := test_sendEmail env provider endpoitsTest;
       page_calls := [test_email_request env endpoitsTest] |}
  else
    {| page_data := Ok (Some (Text "No resend api key")); page_calls := [] |}.

(** An outcome of the health page, read with the test page's
    [EndpointStatus] interface. *)
Definition as_test_endpoint (endpoint : EndpointStatus) : TestEndpointStatus :=
  {| t_name := name endpoint;
     t_url := url endpoint;
     t_status := status_string (status endpoint) |}.

(** ** The collection schema: [content.config.ts]

    A property of the raw entry is [None] when the entry has no such key.
    A parser answers [None] when it rejects the value.  Numbers of [Json]
    are integers, so [.int()] has nothing to reject; what [.url()] accepts
    is a parameter. *)

Definition parse_method (s : string) : option Method :=
  if String.eqb s "GET" then Some GET
  else if String.eqb s "POST" then Some POST
  else if String.eqb s "PUT" then Some PUT
  else if String.eqb s "DELETE" then Some DELETE
  else if String.eqb s "PATCH" then Some PATCH
  else if String.eqb s "HEAD" then Some HEAD
  else if String.eqb s "OPTIONS" then Some OPTIONS
  else None.

Definition z_string (v : option Json) : option string :=
  match v with Some (JStr s) => Some s | _ => None end.

Definition z_string_url (is_url : string → bool) (v : option Json) : option string :=
  s ← z_string v; if is_url s then Some s else None.

Definition z_enum_method (v : option Json) : option Method :=
  s ← z_string v; parse_method s.

Definition z_number_int_positive (v : option Json) : option Z :=
  match v with
  | Some (JNum n) => if (0 <? n)%Z then Some n else None
  | _ => None
  end.

(** [z.record(z.string())]: an object all of whose values are strings; a
    key written twice keeps its last value. *)
Definition z_record_string (v : option Json) : option (gmap string string) :=
  match v with
  | Some (JObj fields) =>
      foldl (λ acc kv,
               m ← acc;
               match kv.2 with
               | JStr s => Some (<[kv.1 := s]> m)
               | _ => None
               end)
            (Some ∅) fields
  | _ => None
  end.

Definition z_default {A} (inner : option Json → option A) (d : A) (v : option Json)
  : option A :=
  match v with None => Some d | Some _ => inner v end.

Definition z_optional {A} (inner : option Json → option A) (v : option Json)
  : option (option A) :=
  match v with None => Some None | Some _ => Some <$> inner v end.

Record CollectionEntry := {
  entry_id : string;
  entry_data : EndpointEntryData
}.

Definition parse_entry (is_url : string → bool) (raw : gmap string Json)
  : option CollectionEntry :=
  i ← z_string (raw !! "id");
  n ← z_string (raw !! "name");
  u ← z_string_url is_url (raw !! "url");
  m ← z_default z_enum_method GET (raw !! "method");
  e ← z_default z_number_int_positive 200%Z (raw !! "expectedStatus");
  d ← z_optional z_string (raw !! "description");
  h ← z_optional z_record_string (raw !! "headers");
  Some {| entry_id := i;
          entry_data :=
            {| e_name := n; e_url := u; e_method := m; e_expectedStatus := e;
               e_description := d; e_headers := h; e_body := raw !! "body" |} |}.

(** Raw entries for the scenarios, and a stand-in for the url test. *)
Definition sample_is_url (s : string) : bool :=
  starts_with "http://" s || starts_with "https://" s.

Definition raw_minimal : gmap string Json :=
  {[ "id" := JStr "a"; "name" := JStr "A"; "url" := JStr "http://ok.test" ]}.

(** An entry as the README writes it: a name and a url only. *)
Definition raw_readme : gmap string Json :=
  {[ "name" := JStr "Google Homepage"; "url" := JStr "https://www.google.com" ]}.

(** * Properties *)

(** ** The scenarios are schedules

    In each scenario every callback is resumed once, in the order in which
    the fetches settle. *)
Lemma scenarios_are_schedules :
  (settles_each_once rt_two [endpointA; endpointB] ∧
   settles_in_time_order rt_two [endpointA; endpointB] = true) ∧
  (settles_each_once rt_both_bad [endpointA; endpointB] ∧
   settles_in_time_order rt_both_bad [endpointA; endpointB] = true) ∧
  (settles_each_once rt_healthy [endpointA] ∧
   settles_in_time_order rt_healthy [endpointA] = true) ∧
  (settles_each_once rt_unconfigured [endpointB] ∧
   settles_in_time_order rt_unconfigured [endpointB] = true) ∧
  (settles_each_once rt_silent [endpointC] ∧
   settles_in_time_order rt_silent [endpointC] = true).
Proof.
  unfold settles_each_once. simpl.
  repeat split; try reflexivity; apply perm_swap.
Qed.

(** ** Exceptions and [Promise.all] *)

Lemma promise_all_Ok {A} (ps : list (result A)) (l : list A) :
  promise_all ps = Ok l ↔ ps = Ok <$> l.
Proof.
  revert l. induction ps as [|p ps IH]; intros l; simpl.
  - destruct l; split; intros H; done || discriminate.
  - destruct p as [a|e]; simpl; [|destruct l; split; discriminate].
    destruct (promise_all ps) as [l'|e'] eqn:Hps; simpl.
    + destruct (IH l') as [IH1 _]. specialize (IH1 eq_refl). subst ps.
      destruct l as [|a' l'']; simpl; [split; discriminate|].
      split.
      * intros [= -> ->]. done.
      * intros [= -> Hl]. apply IH in Hl. by injection Hl as ->.
    + split; [discriminate|].
      destruct l as [|a' l'']; simpl; [discriminate|].
      intros [= -> Hl]. apply IH in Hl. discriminate.
Qed.

(** The callback of one endpoint always returns: whatever [fetch] throws
    is caught, and the handler itself does not throw. *)
Lemma probe_returns (endpoint : EndpointEntryData) (settled : result Response) :
  ∃ p, probe endpoint settled = Ok p.
Proof. destruct settled; simpl; eauto. Qed.

Lemma callbacks_lookup rt entries (i : nat) :
  callbacks rt entries !! i
  = (λ endpoint, probe endpoint (settle rt i endpoint).2) <$> entries !! i.
Proof. unfold callbacks. by rewrite list_lookup_imap. Qed.

Lemma callbacks_length rt entries :
  length (callbacks rt entries) = length entries.
Proof. unfold callbacks. by rewrite length_imap. Qed.

Lemma imap_fulfil {A B} (f : nat → A → result B) (l : list A) :
  (∀ i a, ∃ b, f i a = Ok b) → ∃ bs, imap f l = Ok <$> bs.
Proof.
  revert f. induction l as [|a l IH]; intros f Hf.
  - by exists [].
  - destruct (Hf 0%nat a) as [b Hb].
    destruct (IH (f ∘ S)) as [bs Hbs]; [intros i a'; apply Hf|].
    exists (b :: bs). simpl. by rewrite Hb, Hbs.
Qed.

Lemma callbacks_fulfil rt entries :
  ∃ ps, callbacks rt entries = Ok <$> ps.
Proof. apply imap_fulfil. intros i e. apply probe_returns. Qed.

Lemma fulfilled_lookup rt entries (ps : list Probed) (i : nat) :
  callbacks rt entries = Ok <$> ps →
  ps !! i = None ∧ entries !! i = None ∨
  ∃ endpoint p, entries !! i = Some endpoint ∧ ps !! i = Some p ∧
                probe endpoint (settle rt i endpoint).2 = Ok p.
Proof.
  intros Hps.
  pose proof (callbacks_lookup rt entries i) as Hi.
  rewrite Hps, list_lookup_fmap in Hi.
  destruct (entries !! i) as [endpoint|], (ps !! i) as [p|]; simpl in Hi;
    try discriminate; [right | left; done].
  exists endpoint, p. by injection Hi as <-.
Qed.

Lemma fulfilled_length rt entries (ps : list Probed) :
  callbacks rt entries = Ok <$> ps → length ps = length entries.
Proof.
  intros Hps. rewrite <- (callbacks_length rt entries), Hps.
  by rewrite length_fmap.
Qed.

(** ** The check run *)

(** A check run returns: it installs and returns the outcomes by position,
    stamped with the clock value read on entry. *)
Lemma refresh_returns rt entries currentCache :
  ∃ ps, callbacks rt entries = Ok <$> ps ∧
        returned (refresh rt entries currentCache)
        = Ok {| statuses := outcome <$> ps; lastChecked := clock rt |} ∧
        cache_after (refresh rt entries currentCache)
        = Some {| statuses := outcome <$> ps; lastChecked := clock rt |}.
Proof.
  destruct (callbacks_fulfil rt entries) as [ps Hps]. exists ps.
  split; [done|]. unfold refresh.
  apply promise_all_Ok in Hps. by rewrite Hps.
Qed.

Lemma callbacks_reorder rt order entries :
  callbacks (reorder rt order) entries = callbacks rt entries.
Proof. done. Qed.

Lemma probe_copies_definition endpoint settled p :
  probe endpoint settled = Ok p →
  name (outcome p) = e_name endpoint ∧ url (outcome p) = e_url endpoint ∧
  method (outcome p) = method_string (e_method endpoint) ∧
  expectedStatus (outcome p) = e_expectedStatus endpoint.
Proof. destruct settled; simpl; intros [= <-]; done. Qed.

(** The check run returns, and position [i] of what it returns is what
    the callback of definition [i] returned. *)
Lemma outcomes_positions rt entries currentCache :
  ∃ c, returned (refresh rt entries currentCache) = Ok c ∧
       ∀ i endpoint, entries !! i = Some endpoint →
         ∃ p, probe endpoint (settle rt i endpoint).2 = Ok p ∧
              statuses c !! i = Some (outcome p).
Proof.
  destruct (refresh_returns rt entries currentCache) as (ps & Hps & Hret & _).
  eexists. split; [exact Hret|]. simpl.
  intros i endpoint Hi.
  destruct (fulfilled_lookup rt entries ps i Hps)
    as [[_ Hnone] | (endpoint' & p & He & Hp & Hprobe)]; [congruence|].
  assert (endpoint' = endpoint) as -> by congruence.
  exists p. split; [done|]. by rewrite list_lookup_fmap, Hp.
Qed.

(** C3. For every sequence of N endpoint definitions the check run returns
    an [outcomes] sequence of length N whose entry at each position i is
    the outcome of probing definition i, with that definition's name, url,
    method and expectedStatus; the sequence is the same for every order in
    which the concurrent probes settle. *)
Theorem outcomes_follow_definitions rt entries currentCache :
  ∃ c, returned (refresh rt entries currentCache) = Ok c ∧
       length (statuses c) = length entries ∧
       (∀ i endpoint, entries !! i = Some endpoint →
          ∃ p, probe endpoint (settle rt i endpoint).2 = Ok p ∧
               statuses c !! i = Some (outcome p) ∧
               name (outcome p) = e_name endpoint ∧
               url (outcome p) = e_url endpoint ∧
               method (outcome p) = method_string (e_method endpoint) ∧
               expectedStatus (outcome p) = e_expectedStatus endpoint) ∧
       (∀ order, returned (refresh (reorder rt order) entries currentCache) = Ok c).
Proof.
  destruct (refresh_returns rt entries currentCache) as (ps & Hps & Hret & _).
  eexists. split; [exact Hret|]. simpl. split; [|split].
  - rewrite length_fmap. by apply fulfilled_length in Hps.
  - intros i endpoint Hi.
    destruct (fulfilled_lookup rt entries ps i Hps)
      as [[_ Hnone] | (endpoint' & p & He & Hp & Hprobe)]; [congruence|].
    assert (endpoint' = endpoint) as -> by congruence.
    exists p. split; [done|]. split.
    + by rewrite list_lookup_fmap, Hp.
    + by apply probe_copies_definition in Hprobe.
  - intros order.
    destruct (refresh_returns (reorder rt order) entries currentCache)
      as (ps' & Hps' & Hret' & _).
    rewrite callbacks_reorder, Hps in Hps'.
    assert (ps' = ps) as ->.
    { apply promise_all_Ok in Hps'. rewrite (proj2 (promise_all_Ok _ ps) eq_refl) in Hps'.
      congruence. }
    exact Hret'.
Qed.

Lemma outcomes_follow_definitions_witness :
  [endpointA; endpointB] !! 1%nat = Some endpointB ∧
  ∃ p, probe endpointB (settle rt_two 1 endpointB).2 = Ok p ∧
       name (outcome p) = "B" ∧ status (outcome p) = Unhealthy.
Proof.
  split; [reflexivity|].
  destruct (outcomes_follow_definitions rt_two [endpointA; endpointB] None)
    as (c & _ & _ & Hpos & _).
  destruct (Hpos 1%nat endpointB eq_refl) as (p & Hp & _ & Hname & _).
  exists p. split; [exact Hp|]. split; [exact Hname|].
  vm_compute in Hp. injection Hp as <-. reflexivity.
Defined.

(** ** Classification of one probe *)

Lemma settle_within_deadline rt i endpoint after response :
  transport rt i (e_url endpoint) (fetchOptions endpoint) = Responds after response →
  within_deadline after = true →
  settle rt i endpoint = (after, Ok response).
Proof. intros Ht Hd. unfold settle. rewrite Ht. simpl. by rewrite Hd. Qed.

Lemma settle_timed_out rt i endpoint :
  timed_out (transport rt i (e_url endpoint) (fetchOptions endpoint)) = true →
  settle rt i endpoint
  = (Z.to_N PROBE_TIMEOUT_MS, Throw (AbortError (abort_message rt))).
Proof.
  unfold settle, timed_out.
  destruct (transport rt i (e_url endpoint) (fetchOptions endpoint)) as [after r|after e|];
    simpl; [| |done]; destruct (within_deadline after); simpl; done.
Qed.

(** C2. When the transport answers the probe of definition D before the
    abort timer: a received status equal to [D.expectedStatus] gives the
    outcome status Healthy and no errorMessage; a different one gives
    Unhealthy, statusCode the received status, and the errorMessage
    "Expected status {expected} but got {actual}" with the two numbers
    substituted.  The two numbers are safe integers, which JavaScript
    prints in plain decimal. *)
Theorem completed_probe_classification rt i endpoint after response :
  transport rt i (e_url endpoint) (fetchOptions endpoint) = Responds after response →
  (Z.of_N after < 5000)%Z →
  safe_integer (e_expectedStatus endpoint) →
  safe_integer (r_status response) →
  ∃ p, probe endpoint (settle rt i endpoint).2 = Ok p ∧
       (r_status response = e_expectedStatus endpoint →
          status (outcome p) = Healthy ∧ errorMessage (outcome p) = None) ∧
       (r_status response ≠ e_expectedStatus endpoint →
          status (outcome p) = Unhealthy ∧
          statusCode (outcome p) = Some (r_status response) ∧
          errorMessage (outcome p)
          = Some ("Expected status " +:+ number_string (e_expectedStatus endpoint)
                  +:+ " but got " +:+ number_string (r_status response))).
Proof.
  intros Ht Hlt _ _.
  rewrite (settle_within_deadline rt i endpoint after response Ht)
    by (unfold within_deadline, PROBE_TIMEOUT_MS; by apply Z.ltb_lt).
  simpl. eexists. split; [reflexivity|]. simpl.
  destruct (Z.eqb_spec (r_status response) (e_expectedStatus endpoint)) as [Heq|Hne];
    simpl; split; intros H; done.
Qed.

Lemma completed_probe_classification_witness :
  ∃ p, probe endpointB (settle rt_two 1 endpointB).2 = Ok p ∧
       status (outcome p) = Unhealthy ∧
       statusCode (outcome p) = Some 500%Z ∧
       errorMessage (outcome p) = Some "Expected status 200 but got 500".
Proof.
  destruct (completed_probe_classification rt_two 1 endpointB 40
              {| r_status := 500; r_statusText := "Internal Server Error" |}
              eq_refl eq_refl) as (p & Hp & _ & Hbad);
    [unfold safe_integer, MAX_SAFE_INTEGER; simpl; lia
    |unfold safe_integer, MAX_SAFE_INTEGER; simpl; lia|].
  exists p. split; [exact Hp|]. apply Hbad. vm_compute. discriminate.
Defined.

(** C5. When the transport has neither answered nor failed before the
    5-second abort timer, the callback returns (it does not throw) an
    outcome with status Error, no statusCode, no statusText and the
    errorMessage "Request timed out or was aborted."; the check run that
    contains the probe returns with that outcome at the probe's position. *)
Theorem timed_out_probe_is_error rt entries currentCache i endpoint :
  entries !! i = Some endpoint →
  timed_out (transport rt i (e_url endpoint) (fetchOptions endpoint)) = true →
  ∃ p c, probe endpoint (settle rt i endpoint).2 = Ok p ∧
         status (outcome p) = Error ∧
         statusCode (outcome p) = None ∧
         statusText (outcome p) = None ∧
         errorMessage (outcome p) = Some "Request timed out or was aborted." ∧
         returned (refresh rt entries currentCache) = Ok c ∧
         statuses c !! i = Some (outcome p).
Proof.
  intros Hi Hto.
  destruct (outcomes_positions rt entries currentCache) as (c & Hret & Hpos).
  destruct (Hpos i endpoint Hi) as (p & Hp & Hlook).
  exists p, c. split; [exact Hp|].
  rewrite (settle_timed_out rt i endpoint Hto) in Hp. simpl in Hp.
  injection Hp as <-. simpl. done.
Qed.

Lemma timed_out_probe_is_error_witness :
  ∃ p c, probe endpointC (settle rt_silent 0 endpointC).2 = Ok p ∧
         status (outcome p) = Error ∧
         statusCode (outcome p) = None ∧
         statusText (outcome p) = None ∧
         errorMessage (outcome p) = Some "Request timed out or was aborted." ∧
         returned (refresh rt_silent [endpointC] None) = Ok c ∧
         statuses c !! 0%nat = Some (outcome p).
Proof.
  exact (timed_out_probe_is_error rt_silent [endpointC] None 0 endpointC eq_refl eq_refl).
Defined.

(** ** The failures array *)

(** A callback pushes exactly when it returns an Unhealthy outcome, and
    what it pushes has the fields of what it returns. *)
Lemma pushed_when_unhealthy endpoint settled p :
  probe endpoint settled = Ok p →
  pushed p = match status (outcome p) with
             | Unhealthy => Some (outcome p)
             | _ => None
             end.
Proof.
  destruct settled as [response|error]; simpl; intros [= <-]; simpl; [|done].
  by destruct (r_status response =? e_expectedStatus endpoint)%Z.
Qed.

Lemma omap_pointwise {A B} (f g : A → option B) (l : list A) :
  (∀ a, f a = g a) → omap f l = omap g l.
Proof.
  intros Hfg. induction l as [|a l IH]; [done|].
  csimpl. by rewrite Hfg, IH.
Qed.

Lemma failedEndpoints_fulfilled rt entries (ps : list Probed) :
  callbacks rt entries = Ok <$> ps →
  failedEndpoints rt entries = omap (λ i, ps !! i ≫= pushed) (resume_order rt).
Proof.
  intros Hps. unfold failedEndpoints. rewrite Hps.
  apply omap_pointwise. intros i. rewrite list_lookup_fmap.
  by destruct (ps !! i).
Qed.

(** C10. In a check run, for every position whose outcome is Unhealthy,
    the entry its callback appends to the failures array equals that
    outcome in every field (name, url, method, expectedStatus,
    description, headers, body, status, statusCode, statusText,
    errorMessage), and once every callback has been resumed that entry is
    in the array. *)
Theorem failed_entry_equals_outcome rt entries currentCache c i o :
  returned (refresh rt entries currentCache) = Ok c →
  statuses c !! i = Some o →
  status o = Unhealthy →
  (∃ endpoint p, entries !! i = Some endpoint ∧
                 probe endpoint (settle rt i endpoint).2 = Ok p ∧
                 outcome p = o ∧ pushed p = Some o) ∧
  (settles_each_once rt entries → o ∈ failedEndpoints rt entries).
Proof.
  intros Hret Hi Hst.
  destruct (refresh_returns rt entries currentCache) as (ps & Hps & Hret' & _).
  rewrite Hret' in Hret. injection Hret as <-. simpl in Hi.
  rewrite list_lookup_fmap in Hi.
  destruct (fulfilled_lookup rt entries ps i Hps)
    as [[Hnone _] | (endpoint & p & He & Hp & Hprobe)].
  { rewrite Hnone in Hi. discriminate. }
  rewrite Hp in Hi. simpl in Hi. injection Hi as Ho.
  pose proof (pushed_when_unhealthy _ _ _ Hprobe) as Hpush.
  rewrite Ho, Hst in Hpush.
  split.
  - by exists endpoint, p.
  - intros Hall. rewrite (failedEndpoints_fulfilled rt entries ps Hps).
    apply list_elem_of_omap. exists i. split; [|by rewrite Hp].
    unfold settles_each_once in Hall. rewrite Hall.
    apply elem_of_seq. apply lookup_lt_Some in He. lia.
Qed.

Lemma failed_entry_equals_outcome_witness :
  returned (refresh rt_two [endpointA; endpointB] None)
  = Ok {| statuses := [outcomeA; outcomeB]; lastChecked := 1700000000000 |} ∧
  (∃ endpoint p, [endpointA; endpointB] !! 1%nat = Some endpoint ∧
                 probe endpoint (settle rt_two 1 endpoint).2 = Ok p ∧
                 outcome p = outcomeB ∧ pushed p = Some outcomeB) ∧
  outcomeB ∈ failedEndpoints rt_two [endpointA; endpointB].
Proof.
  assert (returned (refresh rt_two [endpointA; endpointB] None)
          = Ok {| statuses := [outcomeA; outcomeB]; lastChecked := 1700000000000 |})
    as Hret by (vm_compute; reflexivity).
  split; [exact Hret|].
  destruct (failed_entry_equals_outcome rt_two [endpointA; endpointB] None _ 1 outcomeB
              Hret eq_refl eq_refl) as [Hpush Hin].
  split; [exact Hpush|]. apply Hin.
  unfold settles_each_once. simpl. apply perm_swap.
Defined.

Lemma omap_fmap_l {A B C} (g : A → B) (f : B → option C) (l : list A) :
  omap f (g <$> l) = omap (f ∘ g) l.
Proof. induction l as [|a l IH]; [done|]. csimpl. by rewrite IH. Qed.

Lemma omap_lookup_seq {A B} (f : A → option B) (l : list A) :
  omap (λ i, l !! i ≫= f) (seq 0 (length l)) = omap f l.
Proof.
  induction l as [|a l IH]; [done|].
  simpl length. simpl seq. rewrite <- fmap_S_seq. csimpl.
  rewrite omap_fmap_l. unfold compose. simpl. by rewrite IH.
Qed.

Lemma pushed_is_filter (ps : list Probed) :
  Forall (λ p, pushed p = match status (outcome p) with
                          | Unhealthy => Some (outcome p)
                          | _ => None
                          end) ps →
  omap pushed ps = filter (λ o, status o = Unhealthy) (outcome <$> ps).
Proof.
  induction 1 as [|p ps Hp _ IH]; [done|].
  csimpl. rewrite filter_cons, Hp, IH.
  destruct (status (outcome p)); by case_decide.
Qed.

Lemma fulfilled_pushes rt entries (ps : list Probed) :
  callbacks rt entries = Ok <$> ps →
  Forall (λ p, pushed p = match status (outcome p) with
                          | Unhealthy => Some (outcome p)
                          | _ => None
                          end) ps.
Proof.
  intros Hps. apply Forall_lookup. intros i p Hp.
  destruct (fulfilled_lookup rt entries ps i Hps)
    as [[Hnone _] | (endpoint & p' & _ & Hp' & Hprobe)]; [congruence|].
  assert (p' = p) as -> by congruence.
  by eapply pushed_when_unhealthy.
Qed.

(** What the failures array is: the Unhealthy outcomes of the run and
    nothing else, each once, in the order the probes settled. *)
Lemma failures_are_the_unhealthy rt entries currentCache c :
  returned (refresh rt entries currentCache) = Ok c →
  settles_each_once rt entries →
  failedEndpoints rt entries ≡ₚ filter (λ o, status o = Unhealthy) (statuses c).
Proof.
  intros Hret Hperm. unfold settles_each_once in Hperm.
  destruct (refresh_returns rt entries currentCache) as (ps & Hps & Hret' & _).
  rewrite Hret' in Hret. injection Hret as <-. simpl.
  rewrite (failedEndpoints_fulfilled rt entries ps Hps), Hperm.
  rewrite <- (fulfilled_length rt entries ps Hps).
  rewrite omap_lookup_seq. rewrite pushed_is_filter; [done|].
  by eapply fulfilled_pushes.
Qed.

Lemma failures_when_settled_in_order rt entries currentCache c :
  returned (refresh rt entries currentCache) = Ok c →
  resume_order rt = seq 0 (length entries) →
  failedEndpoints rt entries = filter (λ o, status o = Unhealthy) (statuses c).
Proof.
  intros Hret Hord.
  destruct (refresh_returns rt entries currentCache) as (ps & Hps & Hret' & _).
  rewrite Hret' in Hret. injection Hret as <-. simpl.
  rewrite (failedEndpoints_fulfilled rt entries ps Hps), Hord.
  rewrite <- (fulfilled_length rt entries ps Hps).
  rewrite omap_lookup_seq. apply pushed_is_filter.
  by eapply fulfilled_pushes.
Qed.

(** C1. The run over the single definition C, whose target never answers,
    returns the Error outcome of C and leaves the failures array empty: an
    outcome that is not Healthy is missing from the failures, and no
    notification is sent although the credential is configured. *)
Theorem failures_omit_error_outcome :
  returned (refresh rt_silent [endpointC] None)
  = Ok {| statuses := [outcomeC]; lastChecked := 1700000000000 |} ∧
  status outcomeC = Error ∧
  failedEndpoints rt_silent [endpointC] = [] ∧
  credential_configured rt_silent = true ∧
  email_calls (refresh rt_silent [endpointC] None) = 0%nat.
Proof. vm_compute. done. Qed.

(** Two Unhealthy outcomes, B settling before A: the failures array holds
    them in settling order, the outcomes in input order. *)
Lemma failures_in_settling_order :
  ∃ a b, returned (refresh rt_both_bad [endpointA; endpointB] None)
         = Ok {| statuses := [a; b]; lastChecked := 1700000000000 |} ∧
         name a = "A" ∧ name b = "B" ∧
         failedEndpoints rt_both_bad [endpointA; endpointB] = [b; a].
Proof. eexists _, _. vm_compute. done. Qed.

(** ** Outbound calls of a check run *)

Lemma refresh_events rt entries currentCache :
  events (refresh rt entries currentCache)
  = ConsoleLog (lastChecked <$> currentCache) :: launched entries ++ mail rt entries.
Proof.
  destruct (callbacks_fulfil rt entries) as [ps Hps].
  apply promise_all_Ok in Hps. unfold refresh. rewrite Hps. simpl.
  unfold launched, mail. do 2 f_equal.
  apply (imap_const (λ endpoint, ProbeFetch (e_url endpoint) (fetchOptions endpoint))).
Qed.

Lemma launched_emails entries : filter is_email (launched entries) = [].
Proof.
  unfold launched. induction entries as [|e entries IH]; [done|].
  rewrite fmap_cons. by rewrite filter_cons_False by (simpl; tauto).
Qed.

Lemma launched_probes entries :
  length (filter is_probe (launched entries)) = length entries.
Proof.
  unfold launched. induction entries as [|e entries IH]; [done|].
  rewrite fmap_cons, filter_cons_True by (simpl; tauto). simpl. by rewrite IH.
Qed.

Lemma sendEmail_one_call env p failures :
  length (filter is_email (sendEmail env p failures).1) = 1%nat ∧
  filter is_probe (sendEmail env p failures).1 = [].
Proof.
  unfold sendEmail. simpl.
  destruct (email_fetch (p (email_request env failures))) as [[code json]|e]; simpl;
    [destruct (response_json (code, json)); simpl|]; done.
Qed.

Lemma refresh_email_calls rt entries currentCache :
  email_calls (refresh rt entries currentCache)
  = length (filter is_email (mail rt entries)).
Proof.
  unfold email_calls. rewrite refresh_events.
  rewrite filter_cons_False by (simpl; tauto).
  by rewrite filter_app, launched_emails.
Qed.

Lemma refresh_probe_calls rt entries currentCache :
  probe_calls (refresh rt entries currentCache) = length entries.
Proof.
  unfold probe_calls. rewrite refresh_events.
  rewrite filter_cons_False by (simpl; tauto).
  rewrite filter_app, length_app, launched_probes.
  unfold mail. case_match; [|simpl; lia].
  rewrite (proj2 (sendEmail_one_call _ _ _)). simpl. lia.
Qed.

(** C6. In every check run: with an empty failures array no notification
    call is made; with a non-empty one and a credential in the environment
    exactly one call is made, whatever the array's length; without the
    credential no call is made, whatever the array's length.  (An empty
    string as credential counts as none.) *)
Theorem notifier_gating rt entries currentCache :
  (failedEndpoints rt entries = [] →
     email_calls (refresh rt entries currentCache) = 0%nat) ∧
  (∀ key, env rt !! "PUBLIC_RESEND_API_KEY" = Some key → key ≠ "" →
     failedEndpoints rt entries ≠ [] →
     email_calls (refresh rt entries currentCache) = 1%nat) ∧
  (env rt !! "PUBLIC_RESEND_API_KEY" = None ∨
   env rt !! "PUBLIC_RESEND_API_KEY" = Some "" →
     email_calls (refresh rt entries currentCache) = 0%nat).
Proof.
  rewrite refresh_email_calls. unfold mail. split; [|split].
  - intros ->. simpl. by rewrite andb_false_r.
  - intros key -> Hkey Hne. simpl.
    destruct key; [done|]. simpl.
    destruct (failedEndpoints rt entries); [done|]. simpl.
    apply sendEmail_one_call.
  - intros [-> | ->]; done.
Qed.

Lemma notifier_gating_witness :
  length (failedEndpoints rt_both_bad [endpointA; endpointB]) = 2%nat ∧
  email_calls (refresh rt_both_bad [endpointA; endpointB] None) = 1%nat ∧
  failedEndpoints rt_healthy [endpointA] = [] ∧
  email_calls (refresh rt_healthy [endpointA] None) = 0%nat ∧
  length (failedEndpoints rt_unconfigured [endpointB]) = 1%nat ∧
  email_calls (refresh rt_unconfigured [endpointB] None) = 0%nat.
Proof.
  destruct (notifier_gating rt_both_bad [endpointA; endpointB] None) as (_ & Hone & _).
  destruct (notifier_gating rt_healthy [endpointA] None) as (Hzero & _).
  destruct (notifier_gating rt_unconfigured [endpointB] None) as (_ & _ & Hnone).
  split; [by vm_compute|]. split.
  { apply (Hone "re_test_key"); by vm_compute. }
  split; [by vm_compute|]. split.
  { apply Hzero. by vm_compute. }
  split; [by vm_compute|].
  apply Hnone. left. by vm_compute.
Defined.

(** ** The notification cannot disturb the result *)

Lemma sendEmail_fulfils env p failures : (sendEmail env p failures).2 = Ok ().
Proof.
  unfold sendEmail. simpl.
  destruct (p (email_request env failures)) as [code json|error]; simpl; [|done].
  destruct json; done.
Qed.

Lemma refresh_result_ignores_provider rt p entries currentCache :
  returned (refresh (with_provider rt p) entries currentCache)
  = returned (refresh rt entries currentCache) ∧
  cache_after (refresh (with_provider rt p) entries currentCache)
  = cache_after (refresh rt entries currentCache).
Proof.
  unfold refresh.
  change (callbacks (with_provider rt p) entries) with (callbacks rt entries).
  destruct (promise_all (callbacks rt entries)); done.
Qed.

(** C7. Whatever the provider does with the notification call (any
    response status, a body that is not JSON, a transport error),
    [sendEmail] settles without throwing, and the value that
    [getEndpointStatuses] returns and installs in the cache is the same as
    with any other behaviour of the provider. *)
Theorem notification_failure_absorbed rt entries currentCache
    (p : EmailRequest → Provider) (failures : list EndpointStatus) :
  (sendEmail (env rt) p failures).2 = Ok () ∧
  returned (getEndpointStatuses (with_provider rt p) entries currentCache)
  = returned (getEndpointStatuses rt entries currentCache) ∧
  cache_after (getEndpointStatuses (with_provider rt p) entries currentCache)
  = cache_after (getEndpointStatuses rt entries currentCache).
Proof.
  split; [apply sendEmail_fulfils|].
  pose proof (refresh_result_ignores_provider rt p entries currentCache) as [Hr Hc].
  unfold getEndpointStatuses. change (clock (with_provider rt p)) with (clock rt).
  destruct currentCache as [cached|]; [|done].
  destruct (clock rt - lastChecked cached <? CACHE_DURATION_MS)%Z; done.
Qed.

(** A failed send is observed on the console and nowhere else. *)
Lemma failed_send_is_logged :
  let rt := with_provider rt_two
              (λ _, Unreachable {| err_name := "TypeError"; err_message := "fetch failed" |}) in
  returned (getEndpointStatuses rt [endpointA; endpointB] None)
  = Ok {| statuses := [outcomeA; outcomeB]; lastChecked := 1700000000000 |} ∧
  last (events (getEndpointStatuses rt [endpointA; endpointB] None))
  = Some (ConsoleError {| err_name := "TypeError"; err_message := "fetch failed" |}).
Proof. by vm_compute. Qed.

(** ** The cache *)

(** C4. A request that finds a cached value less than 60 seconds old (clock
    minus [lastChecked] strictly below 60000 ms) returns that value, leaves
    it in the cache and makes no probe and no notification call.  Any other
    request performs a check run: one probe per definition, and the run's
    result becomes the cached value and is the value returned. *)
Theorem cache_hit_or_refresh rt entries currentCache :
  (∀ cached, currentCache = Some cached →
     (clock rt - lastChecked cached < 60000)%Z →
     returned (getEndpointStatuses rt entries currentCache) = Ok cached ∧
     cache_after (getEndpointStatuses rt entries currentCache) = Some cached ∧
     probe_calls (getEndpointStatuses rt entries currentCache) = 0%nat ∧
     email_calls (getEndpointStatuses rt entries currentCache) = 0%nat) ∧
  ((∀ cached, currentCache = Some cached →
      ¬ (clock rt - lastChecked cached < 60000)%Z) →
     ∃ fresh,
       getEndpointStatuses rt entries currentCache = refresh rt entries currentCache ∧
       returned (getEndpointStatuses rt entries currentCache) = Ok fresh ∧
       cache_after (getEndpointStatuses rt entries currentCache) = Some fresh ∧
       probe_calls (getEndpointStatuses rt entries currentCache) = length entries ∧
       length (statuses fresh) = length entries ∧
       lastChecked fresh = clock rt).
Proof.
  split.
  - intros cached -> Hfresh. unfold getEndpointStatuses.
    change 60000%Z with CACHE_DURATION_MS in Hfresh.
    apply Z.ltb_lt in Hfresh. by rewrite Hfresh.
  - intros Hstale.
    assert (getEndpointStatuses rt entries currentCache
            = refresh rt entries currentCache) as Hrun.
    { unfold getEndpointStatuses. destruct currentCache as [cached|]; [|done].
      specialize (Hstale cached eq_refl).
      change 60000%Z with CACHE_DURATION_MS in Hstale.
      apply Z.ltb_nlt in Hstale. by rewrite Hstale. }
    rewrite Hrun.
    destruct (refresh_returns rt entries currentCache) as (ps & Hps & Hret & Hcache).
    eexists. split; [done|]. split; [exact Hret|]. split; [exact Hcache|].
    split; [apply refresh_probe_calls|]. split; [|done].
    simpl. rewrite length_fmap. by apply fulfilled_length in Hps.
Qed.

Lemma cache_hit_or_refresh_witness :
  (returned (getEndpointStatuses rt_healthy [endpointA] (Some cached_recent))
   = Ok cached_recent ∧
   probe_calls (getEndpointStatuses rt_healthy [endpointA] (Some cached_recent)) = 0%nat) ∧
  (∃ fresh,
     returned (getEndpointStatuses rt_healthy [endpointA] (Some cached_stale)) = Ok fresh ∧
     cache_after (getEndpointStatuses rt_healthy [endpointA] (Some cached_stale))
     = Some fresh ∧
     probe_calls (getEndpointStatuses rt_healthy [endpointA] (Some cached_stale)) = 1%nat ∧
     lastChecked fresh = 1700000000000%Z) ∧
  (∃ fresh,
     returned (getEndpointStatuses rt_healthy [endpointA] None) = Ok fresh ∧
     cache_after (getEndpointStatuses rt_healthy [endpointA] None) = Some fresh).
Proof.
  split; [|split].
  - destruct (cache_hit_or_refresh rt_healthy [endpointA] (Some cached_recent))
      as [Hhit _].
    destruct (Hhit cached_recent eq_refl) as (Hr & _ & Hp & _); [reflexivity|].
    by split.
  - destruct (cache_hit_or_refresh rt_healthy [endpointA] (Some cached_stale))
      as [_ Hmiss].
    destruct Hmiss as (fresh & _ & Hr & Hc & Hp & _ & Ht).
    { intros cached [= <-]. vm_compute. discriminate. }
    exists fresh. by repeat split.
  - destruct (cache_hit_or_refresh rt_healthy [endpointA] None) as [_ Hmiss].
    destruct Hmiss as (fresh & _ & Hr & Hc & _); [intros cached; discriminate|].
    exists fresh. by split.
Defined.

(** ** The timestamp of a run *)

(** A answers after 80 ms; the run is stamped with the clock value read
    on entry, 80 ms before that probe completed. *)
Lemma stamp_precedes_completion :
  ¬ stamped_at_completion rt_healthy [endpointA] None.
Proof.
  intros H.
  specialize (H {| statuses := [outcomeA]; lastChecked := 1700000000000 |}
                0%nat endpointA eq_refl eq_refl).
  vm_compute in H. by apply H.
Qed.

(** C8 (amended). The [lastChecked] of the value a check run installs is
    the clock value read when the request entered [getEndpointStatuses],
    before any probe was sent: it is not later than the instant at which
    any probe of the run settles. *)
Theorem stamped_at_request_entry rt entries currentCache c :
  cache_after (refresh rt entries currentCache) = Some c →
  lastChecked c = clock rt ∧
  ∀ i endpoint, entries !! i = Some endpoint →
    (lastChecked c ≤ settled_at rt i endpoint)%Z.
Proof.
  intros Hc.
  destruct (refresh_returns rt entries currentCache) as (ps & _ & _ & Hc').
  rewrite Hc' in Hc. injection Hc as <-. simpl. split; [done|].
  intros i endpoint _. unfold settled_at. lia.
Qed.

Lemma stamped_at_request_entry_witness :
  lastChecked {| statuses := [outcomeA]; lastChecked := 1700000000000 |}
  = clock rt_healthy ∧
  (1700000000000 ≤ settled_at rt_healthy 0 endpointA)%Z.
Proof.
  destruct (stamped_at_request_entry rt_healthy [endpointA] None
              {| statuses := [outcomeA]; lastChecked := 1700000000000 |} eq_refl)
    as [Hclock Hle].
  split; [exact Hclock|]. exact (Hle 0%nat endpointA eq_refl).
Defined.

(** ** Sender and recipient *)

Lemma sender_recipient_fixed env failures :
  m_from (email_request env failures) = "health@jsft.dk" ∧
  m_to (email_request env failures) = "jojokbh@gmail.com".
Proof. done. Qed.

(** C9. With [EMAIL_FROM] and [EMAIL_TO] set in the environment next to
    the credential, the one notification of the run over [A; B] is sent
    from "health@jsft.dk" to "jojokbh@gmail.com": the sender and the
    recipient are not the ones the environment supplies.  Without the
    credential the run over [B] sends nothing and returns its result. *)
Theorem sender_recipient_not_from_environment :
  env rt_two !! "EMAIL_FROM" = Some "alerts@example.org" ∧
  env rt_two !! "EMAIL_TO" = Some "oncall@example.org" ∧
  m_from <$> emails_sent (refresh rt_two [endpointA; endpointB] None)
  = ["health@jsft.dk"] ∧
  m_to <$> emails_sent (refresh rt_two [endpointA; endpointB] None)
  = ["jojokbh@gmail.com"] ∧
  emails_sent (refresh rt_unconfigured [endpointB] None) = [] ∧
  ∃ c, returned (refresh rt_unconfigured [endpointB] None) = Ok c.
Proof. vm_compute. repeat split. by eexists. Qed.

(** * Further properties of the code *)

(** ** The request built for a probe *)

Lemma fetchOptions_method endpoint :
  r_method (fetchOptions endpoint) = method_string (e_method endpoint).
Proof.
  unfold fetchOptions.
  destruct (truthy_opt truthy_json (e_body endpoint) && takes_payload (e_method endpoint));
    simpl; by destruct (e_method endpoint).
Qed.

(** X1. A request that carries a body was built for POST, PUT or PATCH
    from a truthy body of the entry, carries that body, and declares a
    non-empty [Content-Type]. *)
Theorem payload_declares_content_type endpoint payload :
  r_body (fetchOptions endpoint) = Some payload →
  takes_payload (e_method endpoint) = true ∧
  e_body endpoint = Some payload ∧
  truthy_json payload = true ∧
  ∃ v, r_headers (fetchOptions endpoint) !! "Content-Type" = Some v ∧ v ≠ "".
Proof.
  unfold fetchOptions.
  destruct (e_body endpoint) as [b|] eqn:Hb; simpl; [|discriminate].
  destruct (truthy_json b) eqn:Htb; simpl; [|discriminate].
  destruct (takes_payload (e_method endpoint)) eqn:Hm; simpl; [|discriminate].
  intros [= <-]. repeat split; try done.
  set (h := match e_headers endpoint with Some h => h | None => ∅ end).
  destruct (h !! "Content-Type") as [v|] eqn:Hv; simpl.
  - destruct v as [|a v]; simpl.
    + exists "application/json". by rewrite lookup_insert_eq.
    + exists (String a v). by rewrite Hv.
  - exists "application/json". by rewrite lookup_insert_eq.
Qed.

Lemma payload_declares_content_type_witness :
  ∃ v, r_headers (fetchOptions
         {| e_name := "P"; e_url := "http://post.test"; e_method := POST;
            e_expectedStatus := 201; e_description := None;
            e_headers := Some {[ "content-type" := "text/plain" ]};
            e_body := Some (JStr "ping") |}) !! "Content-Type" = Some v ∧ v ≠ "".
Proof.
  exact (proj2 (proj2 (proj2
    (payload_declares_content_type
       {| e_name := "P"; e_url := "http://post.test"; e_method := POST;
          e_expectedStatus := 201; e_description := None;
          e_headers := Some {[ "content-type" := "text/plain" ]};
          e_body := Some (JStr "ping") |} (JStr "ping") eq_refl)))).
Defined.

(** X2. The headers object handed to [fetch] ([fetchOptions.headers],
    before [fetch] reads it) has the entry's properties, except that an
    absent or empty property "Content-Type" may have become
    "application/json": every property the entry sets under another key,
    or sets to a non-empty value, is in the object with the same value,
    and every property of the object is the entry's or that default. *)
Theorem request_headers_preserved endpoint (h : gmap string string) (k v : string) :
  e_headers endpoint = Some h →
  (h !! k = Some v → k ≠ "Content-Type" ∨ v ≠ "" →
     r_headers (fetchOptions endpoint) !! k = Some v) ∧
  (r_headers (fetchOptions endpoint) !! k = Some v →
     h !! k = Some v ∨ (k = "Content-Type" ∧ v = "application/json")).
Proof.
  intros Hh. unfold fetchOptions. rewrite Hh.
  destruct (truthy_opt truthy_json (e_body endpoint) && takes_payload (e_method endpoint));
    simpl; [|by split; auto].
  destruct (h !! "Content-Type") as [c|] eqn:Hc; simpl.
  - destruct c as [|a c]; simpl; [|by split; auto]. split.
    + intros Hk [Hne|Hne].
      * by rewrite lookup_insert_ne.
      * destruct (decide (k = "Content-Type")) as [->|Hkne].
        -- rewrite Hc in Hk. by injection Hk as <-.
        -- by rewrite lookup_insert_ne.
    + destruct (decide (k = "Content-Type")) as [->|Hkne].
      * rewrite lookup_insert_eq. intros [= <-]. by right.
      * rewrite lookup_insert_ne by done. by left.
  - split.
    + intros Hk _. destruct (decide (k = "Content-Type")) as [->|Hkne]; [congruence|].
      by rewrite lookup_insert_ne.
    + destruct (decide (k = "Content-Type")) as [->|Hkne].
      * rewrite lookup_insert_eq. intros [= <-]. by right.
      * rewrite lookup_insert_ne by done. by left.
Qed.

Lemma request_headers_preserved_witness :
  r_headers (fetchOptions
    {| e_name := "P"; e_url := "http://post.test"; e_method := POST;
       e_expectedStatus := 201; e_description := None;
       e_headers := Some {[ "Authorization" := "Bearer t";
                            "Content-Type" := "text/plain" ]};
       e_body := Some (JStr "ping") |}) !! "Content-Type" = Some "text/plain".
Proof.
  apply (request_headers_preserved
    {| e_name := "P"; e_url := "http://post.test"; e_method := POST;
       e_expectedStatus := 201; e_description := None;
       e_headers := Some {[ "Authorization" := "Bearer t";
                            "Content-Type" := "text/plain" ]};
       e_body := Some (JStr "ping") |}
    {[ "Authorization" := "Bearer t"; "Content-Type" := "text/plain" ]}
    "Content-Type" "text/plain" eq_refl).
  - reflexivity.
  - right. discriminate.
Defined.

Lemma request_payload_free endpoint :
  takes_payload (e_method endpoint) = false ∨
  truthy_opt truthy_json (e_body endpoint) = false →
  r_body (fetchOptions endpoint) = None.
Proof.
  intros H. unfold fetchOptions.
  destruct H as [-> | ->]; rewrite ?andb_false_r; done.
Qed.

(** X3. For GET, DELETE, HEAD and OPTIONS, and for an entry whose body is
    absent or falsy, the request has no body and exactly the entry's
    headers (none when the entry has none): no [Content-Type] is added. *)
Theorem request_without_payload endpoint :
  takes_payload (e_method endpoint) = false ∨
  truthy_opt truthy_json (e_body endpoint) = false →
  r_body (fetchOptions endpoint) = None ∧
  r_headers (fetchOptions endpoint) = default ∅ (e_headers endpoint) ∧
  r_method (fetchOptions endpoint) = method_string (e_method endpoint).
Proof.
  intros H. split; [|split; [|apply fetchOptions_method]]; unfold fetchOptions;
    destruct H as [-> | ->]; rewrite ?andb_false_r; simpl;
    by destruct (e_headers endpoint).
Qed.

Lemma request_without_payload_witness :
  r_body (fetchOptions
    {| e_name := "G"; e_url := "http://get.test"; e_method := GET;
       e_expectedStatus := 200; e_description := None; e_headers := None;
       e_body := Some (JStr "ignored") |}) = None ∧
  r_headers (fetchOptions
    {| e_name := "G"; e_url := "http://get.test"; e_method := GET;
       e_expectedStatus := 200; e_description := None; e_headers := None;
       e_body := Some (JStr "ignored") |}) = ∅.
Proof.
  destruct (request_without_payload
    {| e_name := "G"; e_url := "http://get.test"; e_method := GET;
       e_expectedStatus := 200; e_description := None; e_headers := None;
       e_body := Some (JStr "ignored") |} (or_introl eq_refl)) as (Hb & Hh & _).
  by split.
Defined.

(** ** The shape of an outcome *)

Lemma probe_outcome_completed endpoint settled p :
  probe endpoint settled = Ok p → completed_outcome (outcome p).
Proof.
  destruct settled as [response|error]; simpl; intros [= <-];
    unfold completed_outcome; simpl.
  - destruct (Z.eqb_spec (r_status response) (e_expectedStatus endpoint)) as [Heq|Hne];
      simpl; repeat split; try done; try congruence.
  - repeat split; done.
Qed.

Lemma probe_outcome_carries_entry endpoint settled p :
  probe endpoint settled = Ok p →
  description (outcome p) = e_description endpoint ∧
  headers (outcome p) = e_headers endpoint ∧
  body (outcome p) = e_body endpoint.
Proof. destruct settled; simpl; intros [= <-]; done. Qed.

Lemma run_outcome_origin rt entries currentCache c o :
  returned (refresh rt entries currentCache) = Ok c →
  o ∈ statuses c →
  ∃ i endpoint p, entries !! i = Some endpoint ∧
                  probe endpoint (settle rt i endpoint).2 = Ok p ∧ o = outcome p.
Proof.
  intros Hret Ho.
  destruct (refresh_returns rt entries currentCache) as (ps & Hps & Hret' & _).
  rewrite Hret' in Hret. injection Hret as <-. simpl in Ho.
  apply list_elem_of_fmap in Ho as (p & -> & Hp).
  apply list_elem_of_lookup in Hp as [i Hi].
  destruct (fulfilled_lookup rt entries ps i Hps)
    as [[Hnone _] | (endpoint & p' & He & Hp' & Hprobe)]; [congruence|].
  assert (p' = p) as -> by congruence.
  by exists i, endpoint, p.
Qed.

(** X4. Every outcome a check run returns is complete: its status is
    never Pending; it is Healthy exactly when its statusCode is its
    expectedStatus; it is Error exactly when it has no statusCode;
    statusText is present exactly when statusCode is; and it has no
    errorMessage exactly when it is Healthy. *)
Theorem run_outcomes_completed rt entries currentCache c o :
  returned (refresh rt entries currentCache) = Ok c →
  o ∈ statuses c →
  completed_outcome o.
Proof.
  intros Hret Ho.
  destruct (run_outcome_origin _ _ _ _ _ Hret Ho) as (i & endpoint & p & _ & Hp & ->).
  by eapply probe_outcome_completed.
Qed.

Lemma run_outcomes_completed_witness :
  completed_outcome outcomeB ∧ completed_outcome outcomeA.
Proof.
  assert (returned (refresh rt_two [endpointA; endpointB] None)
          = Ok {| statuses := [outcomeA; outcomeB]; lastChecked := 1700000000000 |})
    as Hret by (vm_compute; reflexivity).
  split.
  - apply (run_outcomes_completed _ _ _ _ outcomeB Hret).
    simpl. apply elem_of_cons. right. apply elem_of_cons. by left.
  - apply (run_outcomes_completed _ _ _ _ outcomeA Hret).
    simpl. apply elem_of_cons. by left.
Defined.

(** The headers, body and description of an outcome are the entry's
    own, also when the request sent for it got a default [Content-Type]:
    building the request does not change the entry. *)
Theorem outcome_keeps_entry_headers rt entries currentCache c i endpoint :
  returned (refresh rt entries currentCache) = Ok c →
  entries !! i = Some endpoint →
  ∃ o, statuses c !! i = Some o ∧
       headers o = e_headers endpoint ∧
       body o = e_body endpoint ∧
       description o = e_description endpoint.
Proof.
  intros Hret Hi.
  destruct (outcomes_positions rt entries currentCache) as (c' & Hret' & Hpos).
  rewrite Hret in Hret'. injection Hret' as <-.
  destruct (Hpos i endpoint Hi) as (p & Hp & Hlook).
  exists (outcome p). split; [done|].
  apply probe_outcome_carries_entry in Hp. tauto.
Qed.

(** ** Transport failures *)

Lemma string_app_cons (x : ascii) (a b : string) :
  String x a +:+ b = String x (a +:+ b).
Proof. reflexivity. Qed.

Lemma string_app_assoc (a b c : string) : (a +:+ b) +:+ c = a +:+ (b +:+ c).
Proof.
  induction a as [|x a IH]; [done|].
  by rewrite !string_app_cons, IH.
Qed.

Lemma toLowerCase_app (a b : string) :
  toLowerCase (a +:+ b) = toLowerCase a +:+ toLowerCase b.
Proof.
  induction a as [|x a IH]; [done|].
  rewrite string_app_cons. simpl. by rewrite string_app_cons, IH.
Qed.

Lemma starts_with_app (needle rest : string) : starts_with needle (needle +:+ rest) = true.
Proof.
  induction needle as [|x needle IH]; [done|].
  rewrite string_app_cons. simpl. by rewrite Ascii.eqb_refl.
Qed.

Lemma includes_app (pre needle post : string) :
  includes (pre +:+ needle +:+ post) needle = true.
Proof.
  induction pre as [|x pre IH].
  - change ("" +:+ needle +:+ post) with (needle +:+ post).
    pose proof (starts_with_app needle post) as H.
    destruct (needle +:+ post); simpl; by rewrite H.
  - rewrite string_app_cons. simpl. rewrite IH. by rewrite orb_true_r.
Qed.

Lemma includes_sound (s needle : string) :
  includes s needle = true → ∃ pre post, s = pre +:+ needle +:+ post.
Proof.
  assert (∀ n t, starts_with n t = true → ∃ post, t = n +:+ post) as Hsw.
  { induction n as [|x n IH]; intros t; simpl.
    - by exists t.
    - destruct t as [|y t]; [discriminate|].
      destruct (Ascii.eqb_spec x y) as [->|]; [|discriminate].
      intros H. destruct (IH t H) as [post ->]. by exists post. }
  induction s as [|x s IH]; simpl.
  - rewrite orb_false_r. intros H. destruct (Hsw _ _ H) as [post Hp].
    exists "", post. done.
  - intros H. apply orb_true_iff in H as [H|H].
    + destruct (Hsw _ _ H) as [post Hp]. exists "", post. done.
    + destruct (IH H) as (pre & post & ->). by exists (String x pre), post.
Qed.

Lemma settle_failed rt i endpoint after error :
  transport rt i (e_url endpoint) (fetchOptions endpoint) = Fails after error →
  within_deadline after = true →
  settle rt i endpoint = (after, Throw error).
Proof. intros Ht Hd. unfold settle. rewrite Ht. simpl. by rewrite Hd. Qed.

(** X5. A transport failure before the abort timer whose error is not
    named AbortError and whose message, in lower case, contains neither
    "timed out" nor "aborted" gives an Error outcome whose errorMessage is
    the error's own message; nothing is pushed to the failures array. *)
Theorem transport_failure_keeps_message rt i endpoint after error :
  transport rt i (e_url endpoint) (fetchOptions endpoint) = Fails after error →
  (Z.of_N after < 5000)%Z →
  err_name error ≠ "AbortError" →
  includes (toLowerCase (err_message error)) "timed out" = false →
  includes (toLowerCase (err_message error)) "aborted" = false →
  ∃ p, probe endpoint (settle rt i endpoint).2 = Ok p ∧
       status (outcome p) = Error ∧
       statusCode (outcome p) = None ∧
       errorMessage (outcome p) = Some (err_message error) ∧
       pushed p = None.
Proof.
  intros Ht Hlt Hname Ht1 Ht2.
  rewrite (settle_failed rt i endpoint after error Ht)
    by (unfold within_deadline, PROBE_TIMEOUT_MS; by apply Z.ltb_lt).
  cbv [probe try_catch mbind result_bind mret result_ret snd].
  rewrite Ht1, Ht2.
  destruct (String.eqb_spec (err_name error) "AbortError") as [|_]; [done|].
  eexists. by repeat split.
Qed.

Lemma transport_failure_keeps_message_witness :
  let refused := {| err_name := "TypeError"; err_message := "fetch failed" |} in
  let rt := {| clock := 1700000000000; env := ∅;
               transport := λ _ _ _, Fails 12 refused;
               abort_message := "This operation was aborted";
               resume_order := [0%nat];
               provider := λ _, Answers 200 true |} in
  ∃ p, probe endpointA (settle rt 0 endpointA).2 = Ok p ∧
       status (outcome p) = Error ∧
       statusCode (outcome p) = None ∧
       errorMessage (outcome p) = Some "fetch failed" ∧
       pushed p = None.
Proof.
  intros refused rt.
  apply (transport_failure_keeps_message rt 0 endpointA 12 refused eq_refl eq_refl);
    [discriminate | reflexivity | reflexivity].
Defined.

(** X6. A transport failure before the abort timer whose message contains
    "timed out" or "aborted" in any mix of upper and lower case gives an
    Error outcome with the errorMessage
    "Request timed out or was aborted.", whatever the error's name. *)
Theorem failure_message_normalised rt i endpoint after error (pre mid post : string) :
  transport rt i (e_url endpoint) (fetchOptions endpoint) = Fails after error →
  (Z.of_N after < 5000)%Z →
  err_message error = pre +:+ mid +:+ post →
  toLowerCase mid = "timed out" ∨ toLowerCase mid = "aborted" →
  ∃ p, probe endpoint (settle rt i endpoint).2 = Ok p ∧
       status (outcome p) = Error ∧
       errorMessage (outcome p) = Some "Request timed out or was aborted.".
Proof.
  intros Ht Hlt Hmsg Hmid.
  rewrite (settle_failed rt i endpoint after error Ht)
    by (unfold within_deadline, PROBE_TIMEOUT_MS; by apply Z.ltb_lt).
  cbv [probe try_catch mbind result_bind mret result_ret snd].
  rewrite Hmsg, !toLowerCase_app.
  destruct Hmid as [-> | ->]; rewrite includes_app, ?orb_true_r;
    eexists; by repeat split.
Qed.

Lemma failure_message_normalised_witness :
  let slow := {| err_name := "Error"; err_message := "Connect Timed Out (10.0.0.1)" |} in
  let rt := {| clock := 1700000000000; env := ∅;
               transport := λ _ _ _, Fails 3000 slow;
               abort_message := "This operation was aborted";
               resume_order := [0%nat];
               provider := λ _, Answers 200 true |} in
  ∃ p, probe endpointA (settle rt 0 endpointA).2 = Ok p ∧
       status (outcome p) = Error ∧
       errorMessage (outcome p) = Some "Request timed out or was aborted.".
Proof.
  intros slow rt.
  apply (failure_message_normalised rt 0 endpointA 3000 slow
           "Connect " "Timed Out" " (10.0.0.1)" eq_refl eq_refl eq_refl).
  left. reflexivity.
Defined.

(** ** Failures and the notification *)

Lemma launched_no_email entries :
  omap (λ e, match e with EmailFetch r => Some r | _ => None end) (launched entries) = [].
Proof. unfold launched. induction entries as [|e entries IH]; [done|]. by csimpl. Qed.

Lemma refresh_emails_sent rt entries currentCache :
  emails_sent (refresh rt entries currentCache)
  = if truthy_opt truthy_string (env rt !! "PUBLIC_RESEND_API_KEY")
       && (0 <? length (failedEndpoints rt entries))%nat
    then [email_request (env rt) (failedEndpoints rt entries)]
    else [].
Proof.
  unfold emails_sent. rewrite refresh_events. csimpl.
  rewrite omap_app, launched_no_email. simpl. unfold mail.
  destruct (truthy_opt truthy_string (env rt !! "PUBLIC_RESEND_API_KEY")
            && (0 <? length (failedEndpoints rt entries))%nat); [|done].
  unfold sendEmail. simpl.
  destruct (email_fetch (provider rt (email_request (env rt) (failedEndpoints rt entries))))
    as [[code json]|e]; simpl; [destruct (response_json (code, json))|]; done.
Qed.

Lemma email_calls_with_credential rt entries currentCache key :
  env rt !! "PUBLIC_RESEND_API_KEY" = Some key → key ≠ "" →
  email_calls (refresh rt entries currentCache)
  = match failedEndpoints rt entries with [] => 0%nat | _ => 1%nat end.
Proof.
  intros Hkey Hne. rewrite refresh_email_calls. unfold mail. rewrite Hkey.
  destruct key as [|a key]; [done|].
  destruct (failedEndpoints rt entries) as [|f fs]; [done|].
  cbn [truthy_opt truthy_string andb length Nat.ltb Nat.leb].
  apply sendEmail_one_call.
Qed.

(** X8. Once every probe of a check run has settled, the failures array
    is an arrangement of exactly the Unhealthy outcomes of the run; hence,
    with a credential, the run makes its one notification call exactly
    when some outcome is Unhealthy, and a run whose outcomes are all
    Healthy or Error makes none. *)
Theorem notification_iff_unhealthy rt entries currentCache c key :
  returned (refresh rt entries currentCache) = Ok c →
  settles_each_once rt entries →
  env rt !! "PUBLIC_RESEND_API_KEY" = Some key → key ≠ "" →
  failedEndpoints rt entries ≡ₚ filter (λ o, status o = Unhealthy) (statuses c) ∧
  (email_calls (refresh rt entries currentCache) = 1%nat ↔
     ∃ o, o ∈ statuses c ∧ status o = Unhealthy) ∧
  (email_calls (refresh rt entries currentCache) = 0%nat ↔
     ∀ o, o ∈ statuses c → status o = Healthy ∨ status o = Error).
Proof.
  intros Hret Hall Hkey Hne.
  pose proof (failures_are_the_unhealthy rt entries currentCache c Hret Hall) as Hperm.
  pose proof (run_outcome_origin rt entries currentCache c) as Horigin.
  split; [done|].
  rewrite (email_calls_with_credential rt entries currentCache key Hkey Hne).
  destruct (failedEndpoints rt entries) as [|f fs] eqn:Hf.
  - symmetry in Hperm. apply Permutation_nil_r in Hperm. split; split.
    + discriminate.
    + intros (o & Ho & Hst).
      assert (o ∈ filter (λ o, status o = Unhealthy) (statuses c)) as Hin
        by (by apply list_elem_of_filter).
      rewrite Hperm in Hin. by apply elem_of_nil in Hin.
    + intros _ o Ho.
      destruct (Horigin o Hret Ho) as (i & endpoint & p & _ & Hp & ->).
      apply probe_outcome_completed in Hp as (Hpend & _).
      destruct (status (outcome p)) eqn:Hst; auto; [|done].
      assert (outcome p ∈ filter (λ o, status o = Unhealthy) (statuses c)) as Hin
        by (by apply list_elem_of_filter).
      rewrite Hperm in Hin. by apply elem_of_nil in Hin.
    + done.
  - assert (f ∈ filter (λ o, status o = Unhealthy) (statuses c)) as Hin.
    { rewrite <- Hperm. apply elem_of_cons. by left. }
    apply list_elem_of_filter in Hin as [Hst Hin].
    split; split.
    + intros _. by exists f.
    + done.
    + discriminate.
    + intros Hnone. destruct (Hnone f Hin); congruence.
Qed.

Lemma notification_iff_unhealthy_witness :
  failedEndpoints rt_two [endpointA; endpointB] ≡ₚ [outcomeB] ∧
  email_calls (refresh rt_two [endpointA; endpointB] None) = 1%nat ∧
  email_calls (refresh rt_silent [endpointC] None) = 0%nat.
Proof.
  destruct (notification_iff_unhealthy rt_two [endpointA; endpointB] None
              {| statuses := [outcomeA; outcomeB]; lastChecked := 1700000000000 |}
              "re_test_key") as (Hperm & Hone & _);
    [by vm_compute | unfold settles_each_once; simpl; apply perm_swap
     | by vm_compute | discriminate |].
  destruct (notification_iff_unhealthy rt_silent [endpointC] None
              {| statuses := [outcomeC]; lastChecked := 1700000000000 |}
              "re_test_key") as (_ & _ & Hzero);
    [by vm_compute | by unfold settles_each_once | by vm_compute | discriminate |].
  split; [exact Hperm|]. split.
  - apply Hone. exists outcomeB. split; [|done].
    simpl. apply elem_of_cons. right. apply elem_of_cons. by left.
  - apply Hzero. intros o Ho. simpl in Ho.
    apply elem_of_cons in Ho as [-> | Ho]; [by right|]. by apply elem_of_nil in Ho.
Defined.

Lemma string_app_nil_r (a : string) : a +:+ "" = a.
Proof. induction a as [|x a IH]; [done|]. by rewrite string_app_cons, IH. Qed.

Lemma email_content_join (endpoits : list EndpointStatus) :
  email_content endpoits = "<ul>" +:+ join (email_item <$> endpoits) +:+ "</ul>".
Proof.
  unfold email_content.
  assert (∀ acc,
            foldl (λ content endpoint,
                     content +:+ "<li>" +:+ name endpoint +:+ ": "
                             +:+ status_string (status endpoint) +:+ "</li>")
                  acc endpoits
            = acc +:+ join (email_item <$> endpoits)) as ->.
  { induction endpoits as [|e endpoits IH]; intros acc.
    - simpl. by rewrite string_app_nil_r.
    - rewrite fmap_cons. cbn [foldl join]. rewrite IH.
      unfold email_item. by rewrite !string_app_assoc. }
  by rewrite string_app_assoc.
Qed.

Lemma failed_all_unhealthy rt entries f :
  f ∈ failedEndpoints rt entries → status f = Unhealthy.
Proof.
  destruct (callbacks_fulfil rt entries) as [ps Hps].
  rewrite (failedEndpoints_fulfilled rt entries ps Hps).
  intros (i & _ & Hi)%list_elem_of_omap.
  destruct (ps !! i) as [p|] eqn:Hp; [|discriminate]. simpl in Hi.
  pose proof (fulfilled_pushes rt entries ps Hps) as Hall.
  rewrite Forall_lookup in Hall. specialize (Hall i p Hp). rewrite Hall in Hi.
  destruct (status (outcome p)) eqn:Hst; try discriminate.
  injection Hi as <-. done.
Qed.

(** X9. When a check run notifies, its one request carries the
    credential as bearer token, the subject "Health check failed", and
    as body one list item per entry of the failures array, in the order
    of the array, each reading "<name>: Unhealthy". *)
Theorem notification_lists_failures rt entries currentCache key :
  env rt !! "PUBLIC_RESEND_API_KEY" = Some key → key ≠ "" →
  failedEndpoints rt entries ≠ [] →
  ∃ r, emails_sent (refresh rt entries currentCache) = [r] ∧
       m_authorization r = "Bearer " +:+ key ∧
       m_subject r = "Health check failed" ∧
       m_html r = "<strong>" +:+ "<ul>"
                  +:+ join ((λ f, "<li>" +:+ name f +:+ ": Unhealthy</li>")
                            <$> failedEndpoints rt entries)
                  +:+ "</ul>" +:+ "</strong>".
Proof.
  intros Hkey Hne Hfail. rewrite refresh_emails_sent, Hkey.
  destruct key as [|a key]; [done|].
  pose proof (failed_all_unhealthy rt entries) as Hall.
  destruct (failedEndpoints rt entries) as [|f fs] eqn:Hf; [done|].
  cbn [truthy_opt truthy_string andb length Nat.ltb Nat.leb].
  eexists. split; [reflexivity|]. unfold email_request.
  cbn [m_authorization m_subject m_html]. rewrite Hkey. split; [done|]. split; [done|].
  assert (email_item <$> f :: fs
          = (λ f, "<li>" +:+ name f +:+ ": Unhealthy</li>") <$> f :: fs) as <-.
  { apply list_fmap_ext. intros i x Hx.
    unfold email_item. rewrite (Hall x); [done|].
    apply list_elem_of_lookup. eauto. }
  by rewrite email_content_join, !string_app_assoc.
Qed.

Lemma notification_lists_failures_witness :
  ∃ r, emails_sent (refresh rt_both_bad [endpointA; endpointB] None) = [r] ∧
       m_authorization r = "Bearer re_test_key" ∧
       m_html r = "<strong><ul><li>B: Unhealthy</li><li>A: Unhealthy</li></ul></strong>".
Proof.
  destruct (notification_lists_failures rt_both_bad [endpointA; endpointB] None
              "re_test_key") as (r & Hr & Hauth & _ & Hhtml);
    [by vm_compute | discriminate | by vm_compute |].
  exists r. split; [exact Hr|]. split; [exact Hauth|].
  rewrite Hhtml. by vm_compute.
Defined.

(** X10. A check run sends exactly one probe per entry of the collection,
    in the order of the collection, each to the entry's url with the
    entry's method; the "GET" fallback is never used. *)
Theorem one_probe_per_entry rt entries currentCache :
  probe_targets (refresh rt entries currentCache)
  = (λ endpoint, (e_url endpoint, method_string (e_method endpoint))) <$> entries.
Proof.
  unfold probe_targets. rewrite refresh_events. csimpl. rewrite omap_app.
  assert (omap (λ e, match e with
                     | ProbeFetch target init => Some (target, r_method init)
                     | _ => None
                     end) (mail rt entries) = []) as ->.
  { unfold mail. case_match; [|done]. unfold sendEmail. simpl.
    destruct (email_fetch _) as [[code json]|e]; simpl;
      [destruct (response_json (code, json))|]; done. }
  rewrite app_nil_r. unfold launched.
  induction entries as [|e entries IH]; [done|].
  csimpl. by rewrite fetchOptions_method, IH.
Qed.

(** ** The cache across requests *)

(** X11. Every request returns a value (it never throws), leaves exactly
    that value in the global cache, and the value is less than 60 seconds
    older than the clock read by the request. *)
Theorem cache_holds_what_is_returned rt entries currentCache :
  ∃ c, returned (getEndpointStatuses rt entries currentCache) = Ok c ∧
       cache_after (getEndpointStatuses rt entries currentCache) = Some c ∧
       (clock rt - lastChecked c < 60000)%Z.
Proof.
  unfold getEndpointStatuses.
  destruct (refresh_returns rt entries currentCache) as (ps & _ & Hret & Hcache).
  destruct currentCache as [cached|].
  - destruct (Z.ltb_spec (clock rt - lastChecked cached) CACHE_DURATION_MS) as [Hlt|_].
    + exists cached. by repeat split.
    + eexists. split; [exact Hret|]. split; [exact Hcache|]. simpl. lia.
  - eexists. split; [exact Hret|]. split; [exact Hcache|]. simpl. lia.
Qed.

(** X12. A request that follows a check run by less than 60000 ms on the
    clock (also when the clock went backwards) returns the value that run
    returned, leaves the cache as it was, and makes no probe and no
    notification call, whatever the transport would do now. *)
Theorem second_request_within_window rt1 rt2 entries currentCache :
  (clock rt2 - clock rt1 < 60000)%Z →
  let first := refresh rt1 entries currentCache in
  let second := second_request first rt2 entries in
  returned second = returned first ∧
  cache_after second = cache_after first ∧
  probe_calls second = 0%nat ∧
  email_calls second = 0%nat.
Proof.
  intros Hlt first second. subst first second. unfold second_request.
  destruct (refresh_returns rt1 entries currentCache) as (ps & _ & Hret & Hcache).
  rewrite Hret, Hcache. unfold getEndpointStatuses. simpl lastChecked.
  change 60000%Z with CACHE_DURATION_MS in Hlt.
  apply Z.ltb_lt in Hlt. by rewrite Hlt.
Qed.

Lemma second_request_within_window_witness :
  returned (second_request (refresh rt_two [endpointA; endpointB] None)
              (reorder rt_silent [0%nat; 1%nat]) [endpointA; endpointB])
  = Ok {| statuses := [outcomeA; outcomeB]; lastChecked := 1700000000000 |} ∧
  probe_calls (second_request (refresh rt_two [endpointA; endpointB] None)
                 (reorder rt_silent [0%nat; 1%nat]) [endpointA; endpointB]) = 0%nat.
Proof.
  destruct (second_request_within_window rt_two (reorder rt_silent [0%nat; 1%nat])
              [endpointA; endpointB] None eq_refl) as (Hret & _ & Hprobes & _).
  split; [|exact Hprobes]. rewrite Hret. by vm_compute.
Defined.

(** X13. A request that follows a check run by 60000 ms or more on the
    clock performs a check run of its own: one probe per entry, and the
    value it returns and installs carries the second clock value. *)
Theorem second_request_after_window rt1 rt2 entries currentCache :
  (60000 ≤ clock rt2 - clock rt1)%Z →
  let first := refresh rt1 entries currentCache in
  let second := second_request first rt2 entries in
  second = refresh rt2 entries (cache_after first) ∧
  probe_calls second = length entries ∧
  ∃ c, returned second = Ok c ∧ cache_after second = Some c ∧
       lastChecked c = clock rt2 ∧ length (statuses c) = length entries.
Proof.
  intros Hge first second. subst first second. unfold second_request.
  destruct (refresh_returns rt1 entries currentCache) as (ps & _ & _ & Hcache).
  rewrite Hcache.
  assert (getEndpointStatuses rt2 entries
            (Some {| statuses := outcome <$> ps; lastChecked := clock rt1 |})
          = refresh rt2 entries
              (Some {| statuses := outcome <$> ps; lastChecked := clock rt1 |})) as ->.
  { unfold getEndpointStatuses. simpl lastChecked.
    change 60000%Z with CACHE_DURATION_MS in Hge.
    apply Z.ltb_ge in Hge. by rewrite Hge. }
  split; [done|]. split; [apply refresh_probe_calls|].
  destruct (refresh_returns rt2 entries
              (Some {| statuses := outcome <$> ps; lastChecked := clock rt1 |}))
    as (ps2 & Hps2 & Hret2 & Hcache2).
  eexists. split; [exact Hret2|]. split; [exact Hcache2|]. split; [done|].
  simpl. rewrite length_fmap. by apply fulfilled_length in Hps2.
Qed.

Lemma second_request_after_window_witness :
  ∃ c, returned (second_request (refresh rt_healthy [endpointA] None)
                   (at_clock rt_healthy 1700000060000) [endpointA]) = Ok c ∧
       lastChecked c = 1700000060000%Z ∧
       probe_calls (second_request (refresh rt_healthy [endpointA] None)
                      (at_clock rt_healthy 1700000060000) [endpointA]) = 1%nat.
Proof.
  destruct (second_request_after_window rt_healthy (at_clock rt_healthy 1700000060000)
              [endpointA] None) as (_ & Hprobes & c & Hret & _ & Hstamp & _).
  { vm_compute. discriminate. }
  exists c. by repeat split.
Defined.

(** ** The page *)



(** X15. Any status text other than exactly "Healthy" and "Unhealthy"
    (so "Error", "Pending", and "healthy" in lower case) gets the classes
    of "Error". *)
Theorem status_classes_default (status : string) :
  status ≠ "Healthy" → status ≠ "Unhealthy" →
  getStatusClasses status = getStatusClasses "Error".
Proof.
  intros H1 H2. unfold getStatusClasses.
  destruct (String.eqb_spec status "Healthy") as [|_]; [done|].
  destruct (String.eqb_spec status "Unhealthy") as [|_]; [done|].
  reflexivity.
Qed.

Lemma status_classes_default_witness :
  getStatusClasses "healthy" = getStatusClasses "Error" ∧
  getStatusClasses (status_string Pending) = getStatusClasses "Error" ∧
  bg (getStatusClasses "healthy") = "bg-red-700/20".
Proof.
  split; [|split].
  - apply (status_classes_default "healthy"); discriminate.
  - apply (status_classes_default (status_string Pending)); discriminate.
  - reflexivity.
Defined.

(** ** The test page *)

(** X16. The test page's [sendEmail] always fulfils with a value: the
    text "Email sent successfully!" exactly when the provider answers
    with a status from 200 to 299, "Failed to send email:" for any other
    answer, and the caught error when the call fails. It never reads the
    body of the answer and never yields "Didnt even try". *)
Theorem test_sendEmail_result env provider endpoits :
  ∃ d, test_sendEmail env provider endpoits = Ok (Some d) ∧
       d ≠ Text "Didnt even try" ∧ d ≠ Parsed ∧
       match provider (test_email_request env endpoits) with
       | Answers code _ =>
           ((200 ≤ code ≤ 299)%Z → d = Text "Email sent successfully!") ∧
           (¬ (200 ≤ code ≤ 299)%Z → d = Text "Failed to send email:")
       | Unreachable error => d = Caught error
       end.
Proof.
  unfold test_sendEmail, test_sendEmail_body.
  destruct (provider (test_email_request env endpoits)) as [code json|error]; simpl.
  - unfold response_ok.
    destruct (Z.leb_spec 200 code), (Z.leb_spec code 299); simpl;
      eexists; (split; [reflexivity|]); repeat split; try discriminate; intros; lia || done.
  - eexists. split; [reflexivity|]. by repeat split.
Qed.

(** X17. Without a credential the test page makes no call and shows
    "No resend api key". With one it makes exactly one call, with the
    credential as bearer token and the fixed sample "Test1: 200" as
    body, independent of any health check. *)
Theorem test_page_gating env provider :
  (env !! "PUBLIC_RESEND_API_KEY" = None ∨ env !! "PUBLIC_RESEND_API_KEY" = Some "" →
     page_data (test_page env provider) = Ok (Some (Text "No resend api key")) ∧
     page_calls (test_page env provider) = []) ∧
  (∀ key, env !! "PUBLIC_RESEND_API_KEY" = Some key → key ≠ "" →
     page_data (test_page env provider) = test_sendEmail env provider endpoitsTest ∧
     ∃ r, page_calls (test_page env provider) = [r] ∧
          m_authorization r = "Bearer " +:+ key ∧
          m_html r = "<strong><ul><li>Test1: 200</li></ul></strong>").
Proof.
  unfold test_page. split.
  - intros [-> | ->]; done.
  - intros key Hkey Hne. rewrite Hkey. destruct key as [|a key]; [done|]. simpl.
    split; [done|]. eexists. split; [reflexivity|]. simpl. by rewrite Hkey.
Qed.

Lemma test_page_gating_witness :
  page_data (test_page ∅ (λ _, Answers 200 true))
  = Ok (Some (Text "No resend api key")) ∧
  page_data (test_page configured_env (λ _, Answers 403 true))
  = Ok (Some (Text "Failed to send email:")) ∧
  length (page_calls (test_page configured_env (λ _, Answers 403 true))) = 1%nat.
Proof.
  destruct (test_page_gating ∅ (λ _, Answers 200 true)) as [Hnone _].
  destruct (test_page_gating configured_env (λ _, Answers 403 true)) as [_ Hkey].
  destruct (Hkey "re_test_key") as (Hdata & r & Hcalls & _);
    [by vm_compute | discriminate |].
  split; [apply Hnone; by left|]. split.
  - rewrite Hdata. by vm_compute.
  - by rewrite Hcalls.
Defined.

Lemma test_email_content_as_health (endpoits : list EndpointStatus) :
  test_email_content (as_test_endpoint <$> endpoits) = email_content endpoits.
Proof.
  unfold test_email_content, email_content. f_equal.
  generalize "<ul>" as acc.
  induction endpoits as [|e endpoits IH]; intros acc; [done|].
  rewrite fmap_cons. cbn [foldl]. by rewrite IH.
Qed.

(** X18. For the same names and statuses, the test page and the health
    page build the same request: the test page exercises the health
    page's notification format. *)
Theorem test_page_same_request env (endpoits : list EndpointStatus) :
  test_email_request env (as_test_endpoint <$> endpoits) = email_request env endpoits.
Proof.
  unfold test_email_request, email_request.
  by rewrite test_email_content_as_health.
Qed.

Lemma test_sendEmail_result_witness :
  test_sendEmail configured_env (λ _, Answers 204 false) endpoitsTest
  = Ok (Some (Text "Email sent successfully!")).
Proof.
  destruct (test_sendEmail_result configured_env (λ _, Answers 204 false) endpoitsTest)
    as (d & Hd & _ & _ & Hok & _).
  rewrite Hd, Hok; [reflexivity|lia].
Defined.

(** ** The collection schema *)

Lemma parse_method_name (s : string) (m : Method) :
  parse_method s = Some m → s = method_string m.
Proof.
  intros H. unfold parse_method in H.
  repeat match type of H with
         | (if String.eqb ?a ?b then _ else _) = _ =>
             destruct (String.eqb_spec a b) as [->|_]; [by injection H as <-|]
         end.
  discriminate.
Qed.

(** X19. The schema's method enumeration and the method type of the
    health page agree: a text is accepted as a method exactly when it is
    the name of that method, so reading a method's name gives the method
    back. *)
Theorem parse_method_roundtrip (s : string) (m : Method) :
  parse_method s = Some m ↔ s = method_string m.
Proof.
  split; [apply parse_method_name|]. intros ->. by destruct m.
Qed.

Lemma z_string_Some v s : z_string v = Some s → v = Some (JStr s).
Proof. destruct v as [[]|]; simpl; intros [=]; by subst. Qed.

Lemma parse_entry_Some is_url raw entry :
  parse_entry is_url raw = Some entry →
  raw !! "id" = Some (JStr (entry_id entry)) ∧
  raw !! "name" = Some (JStr (e_name (entry_data entry))) ∧
  raw !! "url" = Some (JStr (e_url (entry_data entry))) ∧
  is_url (e_url (entry_data entry)) = true ∧
  z_default z_enum_method GET (raw !! "method") = Some (e_method (entry_data entry)) ∧
  z_default z_number_int_positive 200%Z (raw !! "expectedStatus")
  = Some (e_expectedStatus (entry_data entry)) ∧
  z_optional z_string (raw !! "description") = Some (e_description (entry_data entry)) ∧
  z_optional z_record_string (raw !! "headers") = Some (e_headers (entry_data entry)) ∧
  e_body (entry_data entry) = raw !! "body".
Proof.
  unfold parse_entry. intros H.
  apply bind_Some in H as (i & Hi & H).
  apply bind_Some in H as (n & Hn & H).
  apply bind_Some in H as (u & Hu & H).
  apply bind_Some in H as (m & Hm & H).
  apply bind_Some in H as (e & He & H).
  apply bind_Some in H as (d & Hd & H).
  apply bind_Some in H as (h & Hh & H).
  injection H as <-. simpl.
  apply z_string_Some in Hi, Hn.
  unfold z_string_url in Hu. apply bind_Some in Hu as (u' & Hu' & Hu).
  apply z_string_Some in Hu'.
  destruct (is_url u') eqn:Hurl; [|discriminate]. injection Hu as <-.
  by repeat split.
Qed.

(** X20. An entry the schema accepts has an id, a name and a url that
    are texts of the raw entry, a url that passes the url test, and a
    positive expectedStatus; an omitted method is GET and an omitted
    expectedStatus is 200, and a given one is kept. *)
Theorem accepted_entry is_url raw entry :
  parse_entry is_url raw = Some entry →
  raw !! "id" = Some (JStr (entry_id entry)) ∧
  raw !! "name" = Some (JStr (e_name (entry_data entry))) ∧
  raw !! "url" = Some (JStr (e_url (entry_data entry))) ∧
  is_url (e_url (entry_data entry)) = true ∧
  (0 < e_expectedStatus (entry_data entry))%Z ∧
  (raw !! "expectedStatus" = None → e_expectedStatus (entry_data entry) = 200%Z) ∧
  (∀ v, raw !! "expectedStatus" = Some v →
     v = JNum (e_expectedStatus (entry_data entry))) ∧
  (raw !! "method" = None → e_method (entry_data entry) = GET) ∧
  (∀ v, raw !! "method" = Some v →
     v = JStr (method_string (e_method (entry_data entry)))).
Proof.
  intros H.
  destruct (parse_entry_Some _ _ _ H) as (Hi & Hn & Hu & Hurl & Hm & He & _).
  repeat split; try done.
  - destruct (raw !! "expectedStatus") as [[]|]; simpl in He; try discriminate.
    + destruct (Z.ltb_spec 0 n); [|discriminate]. by injection He as <-.
    + by injection He as <-.
  - intros Hnone. rewrite Hnone in He. by injection He as <-.
  - intros v Hv. rewrite Hv in He. destruct v; simpl in He; try discriminate.
    destruct (0 <? n)%Z; [|discriminate]. by injection He as <-.
  - intros Hnone. rewrite Hnone in Hm. by injection Hm as <-.
  - intros v Hv. rewrite Hv in Hm. simpl in Hm.
    unfold z_enum_method in Hm. apply bind_Some in Hm as (s & Hs & Hm).
    apply z_string_Some in Hs. injection Hs as ->.
    apply parse_method_name in Hm. by subst.
Qed.

Lemma accepted_entry_witness :
  ∃ entry, parse_entry sample_is_url raw_minimal = Some entry ∧
           e_name (entry_data entry) = "A" ∧
           e_method (entry_data entry) = GET ∧
           e_expectedStatus (entry_data entry) = 200%Z.
Proof.
  assert (parse_entry sample_is_url raw_minimal
          = Some {| entry_id := "a"; entry_data := endpointA |}) as H
    by (by vm_compute).
  destruct (accepted_entry _ _ _ H) as (_ & _ & _ & _ & _ & Hstatus & _ & Hmethod & _).
  eexists. split; [exact H|]. split; [reflexivity|]. split.
  - apply Hmethod. by vm_compute.
  - apply Hstatus. by vm_compute.
Defined.

(** X21. The schema rejects an entry without an id, without a name or
    without a url, one whose url fails the url test, one whose
    expectedStatus is zero or negative, one whose method is not one of
    the seven names (in upper case), and one whose description is
    present but not a text. *)
Theorem rejected_entry is_url raw :
  raw !! "id" = None ∨ raw !! "name" = None ∨ raw !! "url" = None ∨
  (∃ u, raw !! "url" = Some (JStr u) ∧ is_url u = false) ∨
  (∃ n, raw !! "expectedStatus" = Some (JNum n) ∧ (n ≤ 0)%Z) ∨
  (∃ s, raw !! "method" = Some (JStr s) ∧ ∀ m, s ≠ method_string m) ∨
  (∃ v, raw !! "description" = Some v ∧ ∀ s, v ≠ JStr s) →
  parse_entry is_url raw = None.
Proof.
  intros H.
  destruct (parse_entry is_url raw) as [entry|] eqn:Hparse; [exfalso|done].
  destruct (parse_entry_Some _ _ _ Hparse)
    as (Hi & Hn & Hu & Hurl & Hm & He & Hd & _).
  destruct H as [H|[H|[H|[(u & H & Hbad)|[(n & H & Hbad)|[(s & H & Hbad)|(v & H & Hbad)]]]]]].
  - congruence.
  - congruence.
  - congruence.
  - rewrite H in Hu. injection Hu as ->. congruence.
  - rewrite H in He. simpl in He.
    destruct (Z.ltb_spec 0 n); [lia|discriminate].
  - rewrite H in Hm. simpl in Hm. apply parse_method_name in Hm. by eapply Hbad.
  - rewrite H in Hd. simpl in Hd.
    destruct v; simpl in Hd; try discriminate. by eapply Hbad.
Qed.

Lemma rejected_entry_witness :
  parse_entry sample_is_url raw_readme = None ∧
  parse_entry sample_is_url (<["method" := JStr "get"]> raw_minimal) = None ∧
  parse_entry sample_is_url (<["expectedStatus" := JNum 0]> raw_minimal) = None.
Proof.
  split; [|split]; apply rejected_entry.
  - left. reflexivity.
  - do 5 right. left. exists "get". split; [reflexivity|]. intros m. by destruct m.
  - do 4 right. left. exists 0%Z. split; [reflexivity|lia].
Defined.

(** X22. An accepted entry that gives neither a method nor an
    expectedStatus is probed with a GET request without body, and its
    outcome is Healthy exactly when the target answers 200. *)
Theorem defaults_reach_probe is_url raw entry response :
  parse_entry is_url raw = Some entry →
  raw !! "method" = None →
  raw !! "expectedStatus" = None →
  r_method (fetchOptions (entry_data entry)) = "GET" ∧
  r_body (fetchOptions (entry_data entry)) = None ∧
  ∃ p, probe (entry_data entry) (Ok response) = Ok p ∧
       (status (outcome p) = Healthy ↔ r_status response = 200%Z).
Proof.
  intros Hparse Hm He.
  destruct (parse_entry_Some _ _ _ Hparse) as (_ & _ & _ & _ & Hm' & He' & _).
  rewrite Hm in Hm'. rewrite He in He'. simpl in Hm', He'.
  injection Hm' as Hmethod. injection He' as Hexpected.
  split; [by rewrite fetchOptions_method, <- Hmethod|]. split.
  - apply request_payload_free. left. by rewrite <- Hmethod.
  - simpl. eexists. split; [reflexivity|]. simpl. rewrite <- Hexpected.
    destruct (Z.eqb_spec (r_status response) 200); split; done.
Qed.

Lemma defaults_reach_probe_witness :
  r_method (fetchOptions endpointA) = "GET" ∧
  ∃ p, probe endpointA (Ok {| r_status := 200; r_statusText := "OK" |}) = Ok p ∧
       status (outcome p) = Healthy.
Proof.
  destruct (defaults_reach_probe sample_is_url raw_minimal
              {| entry_id := "a"; entry_data := endpointA |}
              {| r_status := 200; r_statusText := "OK" |})
    as (Hmethod & _ & p & Hp & Hhealthy); [by vm_compute | by vm_compute | by vm_compute |].
  split; [exact Hmethod|]. exists p. split; [exact Hp|]. by apply Hhealthy.
Defined.
